(** * winston-papertrail-transport: connection engine and message sender

    A shallow embedding of [src/index.ts].  That file holds two revisions of
    the same module, one after the other:

    - [RevA]: lines 1-362   (the revision with [logFormat], [inlineMeta], ...)
    - [RevB]: lines 363-678 (the revision built on triple-beam's LEVEL/MESSAGE)

    The two revisions share [connect], [onConnected], [onErrored] and
    [emitSilentError] verbatim and differ in [write], [processBuffer],
    [close] and [sendMessage].  Every definition below takes the revision as
    a parameter and branches on it exactly where the source text differs.

    Data.  Numbers are JavaScript numbers restricted to integers ([Z]); an
    option that may be [undefined] is an [option Z], and a comparison with
    [undefined] is [false] as in JavaScript.  Socket objects live in a heap
    indexed by allocation order, so that two references to one socket alias.
    A completion callback is a tag ([option nat]); the connection only ever
    passes it on.

    Effects.  A method is a function from the object to the object and an
    outcome, which is a return or an exception.  Timers that were set are
    part of the state, and so is the ordered log of what the connection did
    to the outside: writes to a stream, destroyed sockets, emitted events.

    What is taken from Node, not from this repository:
    - a socket is [writable] from the moment it starts connecting
      ([fresh_sock]); the runtime may change the flag at any time
      ([EvWritable]);
    - [net.createConnection] raises on a port outside 0..65535;
    - a socket that was destroyed delivers no further events, and a socket
      that reported an error has been destroyed by the runtime;
    - an exception that no handler catches ends the run of the event loop.
    glossy's [produce] and the clock are parameters of the message sender. *)

From Stdlib Require Import ZArith Lia Bool Ascii String List.
From stdpp Require Import base option list strings gmap.

Inductive Revision := RevA | RevB.

(** ** Configuration *)

Module Opt.
(** [PapertrailTransportOptions], the fields the connection reads.
    [disableTls] and [flushOnClose] are only ever tested for truthiness. *)
Record PapertrailTransportOptions := {
  host : string;
  port : Z;
  disableTls : bool;
  flushOnClose : bool;
  attemptsBeforeDecay : option Z;
  maximumAttempts : option Z;
  connectionDelay : option Z;
  maxDelayBetweenReconnection : option Z
}.
End Opt.
Abbreviation PapertrailTransportOptions := Opt.PapertrailTransportOptions.

(** JavaScript [<] and [>=] on numbers that may be [undefined]. *)
Definition js_lt (a b : option Z) : bool :=
  match a, b with
  | Some x, Some y => (x <? y)%Z
  | _, _ => false
  end.

Definition js_ge (a b : option Z) : bool :=
  match a, b with
  | Some x, Some y => (y <=? x)%Z
  | _, _ => false
  end.

(** ** Runtime objects *)

(** An entry of [deferredQueue]: [{ buffer: text, callback }]. *)
Record Entry := { buffer : string; callback : option nat }.

(** The callback handed to [net.createConnection] / [tls.connect]. *)
Inductive ConnectCb :=
| CbOnConnected          (* () => this.onConnected() *)
| CbTlsUpgrade.          (* the TLS branch of connect: wraps the raw socket *)

(** A [net.Socket] / [tls.TLSSocket] object.  [writable] belongs to the
    runtime; [write_throws] and [destroy_throws] say whether a synchronous
    [write] or [destroy] on this object raises. *)
Record Sock := {
  writable : bool;
  write_throws : bool;
  destroy_throws : bool;
  destroyed : bool;
  connect_cb : option ConnectCb;
  error_once : bool;            (* once('error', err => this.onErrored(err)) *)
  end_once : bool;              (* once('end', () => this.connect()) *)
  empty_listeners : nat         (* on('empty', teardown) registered by close *)
}.

Inductive Err :=
| ErrConnection                 (* the error handed to onErrored *)
| ErrMaximumRetries.            (* 'Maximum number of retries exceeded, disabling buffering' *)

(** What the connection does to the outside, in order. *)
Inductive Effect :=
| EmitError (e : Err)           (* this.emit('error', err) *)
| ConsoleError (e : Err)        (* console.error(...) *)
| EmitConnect                   (* this.emit('connect', ...) *)
| Wrote (i : nat) (e : Entry)   (* stream.write(e.buffer, e.callback) on socket i *)
| Destroyed (i : nat).          (* socket i .destroy() *)

Inductive Timer :=
| TReconnect                    (* the callback scheduled by onErrored *)
| TClose (attempt : nat).       (* _close of a close() call, with its counter *)

(** ** PapertrailConnection *)

Record PapertrailConnection := {
  options : PapertrailTransportOptions;
  connectionDelay : option Z;
  currentRetries : Z;
  totalRetries : Z;
  loggingEnabled : bool;
  _shutdown : bool;
  _erroring : bool;
  deferredQueue : list Entry;
  stream : option nat;
  socket : option nat;
  (* the runtime around the object *)
  heap : list Sock;
  timers : list (Timer * option Z);
  error_observers : nat;        (* this.listenerCount('error') *)
  log : list Effect
}.

Inductive Outcome (A : Type) :=
| Ret (a : A)
| Throw.
Arguments Ret {A} a.
Arguments Throw {A}.

(** A method: runs on the object, may mutate it, returns or raises. *)
Definition M (A : Type) : Type :=
  PapertrailConnection -> PapertrailConnection * Outcome A.

Definition ret {A} (a : A) : M A := fun this => (this, Ret a).
Definition throw {A} : M A := fun this => (this, Throw).

Definition bind {A B} (m : M A) (k : A -> M B) : M B := fun this =>
  match m this with
  | (this', Ret a) => k a this'
  | (this', Throw) => (this', Throw)
  end.

(** [try { body } catch (e) { handler }] *)
Definition try_catch {A} (body handler : M A) : M A := fun this =>
  match body this with
  | (this', Ret a) => (this', Ret a)
  | (this', Throw) => handler this'
  end.

(** Read [this] and continue. *)
Definition withThis {A} (k : PapertrailConnection -> M A) : M A :=
  fun this => k this this.

Definition modify (f : PapertrailConnection -> PapertrailConnection) : M unit :=
  fun this => (f this, Ret tt).

Declare Scope method_scope.
Delimit Scope method_scope with method.
Bind Scope method_scope with M.
Notation "x <-- m ; k" := (bind m (fun x => k))
  (at level 90, m at level 80, k at level 200, right associativity) : method_scope.
Notation "m >>> k" := (bind m (fun _ => k))
  (at level 85, right associativity) : method_scope.
Open Scope method_scope.

Section Setters.
Context (this : PapertrailConnection).

Definition with_connectionDelay (v : option Z) :=
  {| options := options this; connectionDelay := v;
     currentRetries := currentRetries this; totalRetries := totalRetries this;
     loggingEnabled := loggingEnabled this; _shutdown := _shutdown this;
     _erroring := _erroring this; deferredQueue := deferredQueue this;
     stream := stream this; socket := socket this; heap := heap this;
     timers := timers this; error_observers := error_observers this;
     log := log this |}.

Definition with_currentRetries (v : Z) :=
  {| options := options this; connectionDelay := connectionDelay this;
     currentRetries := v; totalRetries := totalRetries this;
     loggingEnabled := loggingEnabled this; _shutdown := _shutdown this;
     _erroring := _erroring this; deferredQueue := deferredQueue this;
     stream := stream this; socket := socket this; heap := heap this;
     timers := timers this; error_observers := error_observers this;
     log := log this |}.

Definition with_totalRetries (v : Z) :=
  {| options := options this; connectionDelay := connectionDelay this;
     currentRetries := currentRetries this; totalRetries := v;
     loggingEnabled := loggingEnabled this; _shutdown := _shutdown this;
     _erroring := _erroring this; deferredQueue := deferredQueue this;
     stream := stream this; socket := socket this; heap := heap this;
     timers := timers this; error_observers := error_observers this;
     log := log this |}.

Definition with_loggingEnabled (v : bool) :=
  {| options := options this; connectionDelay := connectionDelay this;
     currentRetries := currentRetries this; totalRetries := totalRetries this;
     loggingEnabled := v; _shutdown := _shutdown this;
     _erroring := _erroring this; deferredQueue := deferredQueue this;
     stream := stream this; socket := socket this; heap := heap this;
     timers := timers this; error_observers := error_observers this;
     log := log this |}.

Definition with_shutdown (v : bool) :=
  {| options := options this; connectionDelay := connectionDelay this;
     currentRetries := currentRetries this; totalRetries := totalRetries this;
     loggingEnabled := loggingEnabled this; _shutdown := v;
     _erroring := _erroring this; deferredQueue := deferredQueue this;
     stream := stream this; socket := socket this; heap := heap this;
     timers := timers this; error_observers := error_observers this;
     log := log this |}.

Definition with_erroring (v : bool) :=
  {| options := options this; connectionDelay := connectionDelay this;
     currentRetries := currentRetries this; totalRetries := totalRetries this;
     loggingEnabled := loggingEnabled this; _shutdown := _shutdown this;
     _erroring := v; deferredQueue := deferredQueue this;
     stream := stream this; socket := socket this; heap := heap this;
     timers := timers this; error_observers := error_observers this;
     log := log this |}.

Definition with_deferredQueue (v : list Entry) :=
  {| options := options this; connectionDelay := connectionDelay this;
     currentRetries := currentRetries this; totalRetries := totalRetries this;
     loggingEnabled := loggingEnabled this; _shutdown := _shutdown this;
     _erroring := _erroring this; deferredQueue := v;
     stream := stream this; socket := socket this; heap := heap this;
     timers := timers this; error_observers := error_observers this;
     log := log this |}.

Definition with_stream (v : option nat) :=
  {| options := options this; connectionDelay := connectionDelay this;
     currentRetries := currentRetries this; totalRetries := totalRetries this;
     loggingEnabled := loggingEnabled this; _shutdown := _shutdown this;
     _erroring := _erroring this; deferredQueue := deferredQueue this;
     stream := v; socket := socket this; heap := heap this;
     timers := timers this; error_observers := error_observers this;
     log := log this |}.

Definition with_socket (v : option nat) :=
  {| options := options this; connectionDelay := connectionDelay this;
     currentRetries := currentRetries this; totalRetries := totalRetries this;
     loggingEnabled := loggingEnabled this; _shutdown := _shutdown this;
     _erroring := _erroring this; deferredQueue := deferredQueue this;
     stream := stream this; socket := v; heap := heap this;
     timers := timers this; error_observers := error_observers this;
     log := log this |}.

Definition with_heap (v : list Sock) :=
  {| options := options this; connectionDelay := connectionDelay this;
     currentRetries := currentRetries this; totalRetries := totalRetries this;
     loggingEnabled := loggingEnabled this; _shutdown := _shutdown this;
     _erroring := _erroring this; deferredQueue := deferredQueue this;
     stream := stream this; socket := socket this; heap := v;
     timers := timers this; error_observers := error_observers this;
     log := log this |}.

Definition with_timers (v : list (Timer * option Z)) :=
  {| options := options this; connectionDelay := connectionDelay this;
     currentRetries := currentRetries this; totalRetries := totalRetries this;
     loggingEnabled := loggingEnabled this; _shutdown := _shutdown this;
     _erroring := _erroring this; deferredQueue := deferredQueue this;
     stream := stream this; socket := socket this; heap := heap this;
     timers := v; error_observers := error_observers this;
     log := log this |}.

Definition with_error_observers (v : nat) :=
  {| options := options this; connectionDelay := connectionDelay this;
     currentRetries := currentRetries this; totalRetries := totalRetries this;
     loggingEnabled := loggingEnabled this; _shutdown := _shutdown this;
     _erroring := _erroring this; deferredQueue := deferredQueue this;
     stream := stream this; socket := socket this; heap := heap this;
     timers := timers this; error_observers := v;
     log := log this |}.

Definition with_log (v : list Effect) :=
  {| options := options this; connectionDelay := connectionDelay this;
     currentRetries := currentRetries this; totalRetries := totalRetries this;
     loggingEnabled := loggingEnabled this; _shutdown := _shutdown this;
     _erroring := _erroring this; deferredQueue := deferredQueue this;
     stream := stream this; socket := socket this; heap := heap this;
     timers := timers this; error_observers := error_observers this;
     log := v |}.
End Setters.

Definition effect (e : Effect) : M unit :=
  modify (fun this => with_log this (log this ++ [e])).

(** [setTimeout(fn, delay)] *)
Definition setTimeout (t : Timer) (delay : option Z) : M unit :=
  modify (fun this => with_timers this (timers this ++ [(t, delay)])).

(** *** Socket primitives (the part of Node's [net]/[tls] the code relies on) *)

Definition update_sock (i : nat) (f : Sock -> Sock) : M unit :=
  modify (fun this =>
    match heap this !! i with
    | Some s => with_heap this (<[i := f s]> (heap this))
    | None => this
    end).

Definition sock_writable (v : bool) (s : Sock) : Sock :=
  {| writable := v; write_throws := write_throws s;
     destroy_throws := destroy_throws s; destroyed := destroyed s;
     connect_cb := connect_cb s; error_once := error_once s;
     end_once := end_once s; empty_listeners := empty_listeners s |}.

Definition sock_write_throws (v : bool) (s : Sock) : Sock :=
  {| writable := writable s; write_throws := v;
     destroy_throws := destroy_throws s; destroyed := destroyed s;
     connect_cb := connect_cb s; error_once := error_once s;
     end_once := end_once s; empty_listeners := empty_listeners s |}.

Definition sock_destroy_throws (v : bool) (s : Sock) : Sock :=
  {| writable := writable s; write_throws := write_throws s;
     destroy_throws := v; destroyed := destroyed s;
     connect_cb := connect_cb s; error_once := error_once s;
     end_once := end_once s; empty_listeners := empty_listeners s |}.

Definition sock_destroyed (s : Sock) : Sock :=
  {| writable := false; write_throws := write_throws s;
     destroy_throws := destroy_throws s; destroyed := true;
     connect_cb := connect_cb s; error_once := error_once s;
     end_once := end_once s; empty_listeners := empty_listeners s |}.

Definition sock_connect_cb (v : option ConnectCb) (s : Sock) : Sock :=
  {| writable := writable s; write_throws := write_throws s;
     destroy_throws := destroy_throws s; destroyed := destroyed s;
     connect_cb := v; error_once := error_once s;
     end_once := end_once s; empty_listeners := empty_listeners s |}.

Definition sock_error_once (v : bool) (s : Sock) : Sock :=
  {| writable := writable s; write_throws := write_throws s;
     destroy_throws := destroy_throws s; destroyed := destroyed s;
     connect_cb := connect_cb s; error_once := v;
     end_once := end_once s; empty_listeners := empty_listeners s |}.

Definition sock_end_once (v : bool) (s : Sock) : Sock :=
  {| writable := writable s; write_throws := write_throws s;
     destroy_throws := destroy_throws s; destroyed := destroyed s;
     connect_cb := connect_cb s; error_once := error_once s;
     end_once := v; empty_listeners := empty_listeners s |}.

Definition sock_add_empty_listener (s : Sock) : Sock :=
  {| writable := writable s; write_throws := write_throws s;
     destroy_throws := destroy_throws s; destroyed := destroyed s;
     connect_cb := connect_cb s; error_once := error_once s;
     end_once := end_once s; empty_listeners := S (empty_listeners s) |}.

(** A socket as [net.createConnection] / [tls.connect] returns it: Node sets
    [writable] on a socket as soon as it starts connecting. *)
Definition fresh_sock (cb : ConnectCb) : Sock :=
  {| writable := true; write_throws := false; destroy_throws := false;
     destroyed := false; connect_cb := Some cb; error_once := false;
     end_once := false; empty_listeners := 0 |}.

(** [net.createConnection(port, host, cb)]: raises synchronously on a port
    outside 0..65535, otherwise returns a new socket object. *)
Definition createConnection (cb : ConnectCb) : M nat :=
  withThis (fun this =>
    if ((0 <=? Opt.port (options this))%Z && (Opt.port (options this) <? 65536)%Z)
    then modify (fun this => with_heap this (heap this ++ [fresh_sock cb])) >>>
         ret (length (heap this))
    else throw).

(** [tls.connect({ socket, rejectUnauthorized: false }, cb)] *)
Definition tls_connect (cb : ConnectCb) : M nat :=
  withThis (fun this =>
    modify (fun this => with_heap this (heap this ++ [fresh_sock cb])) >>>
    ret (length (heap this))).

(** [stream.write(text, callback)] on socket object [i]. *)
Definition stream_write (i : nat) (e : Entry) : M unit :=
  withThis (fun this =>
    match heap this !! i with
    | Some s => if write_throws s then throw else effect (Wrote i e)
    | None => throw
    end).

(** [sock.destroy()] on socket object [i]. *)
Definition destroy (i : nat) : M unit :=
  withThis (fun this =>
    match heap this !! i with
    | Some s =>
        if destroy_throws s then throw
        else update_sock i sock_destroyed >>> effect (Destroyed i)
    | None => throw
    end).

Definition is_writable (this : PapertrailConnection) (i : nat) : bool :=
  match heap this !! i with
  | Some s => writable s
  | None => false
  end.

(** [this.stream && this.stream.writable] (RevB: [this.stream?.writable]) *)
Definition stream_is_writable (this : PapertrailConnection) : bool :=
  match stream this with
  | Some i => is_writable this i
  | None => false
  end.

(** *** Methods *)

Section Connection.
Variable rev : Revision.

(** [emitSilentError(err)] *)
Definition emitSilentError (err : Err) : M unit :=
  withThis (fun this =>
    if (0 <? error_observers this)%nat then effect (EmitError err)
    else effect (ConsoleError err)).

(** [onErrored(err)]: the synchronous part; the timer body is
    [onErrored_timeout] below. *)
Definition onErrored : M unit :=
  modify (fun this => with_erroring this true) >>>
  emitSilentError ErrConnection >>>
  withThis (fun this => setTimeout TReconnect (connectionDelay this)).

(** RevA [closeStream] (local to [close]).  [removeListener] is handed
    [this.connect] / [this.onErrored], which are not the arrow functions
    that were registered, so it removes nothing; on an absent stream the
    property access raises. *)
Definition closeStream : M unit :=
  withThis (fun this =>
    match stream this with
    | Some i => destroy i >>> modify (fun this => with_stream this None)
    | None => throw
    end).

(** RevB [closeSockets()] *)
Definition closeSockets : M unit :=
  withThis (fun this =>
    match socket this with
    | Some i => destroy i >>> modify (fun this => with_socket this None)
    | None => ret tt
    end) >>>
  withThis (fun this =>
    match stream this with
    | Some i =>
        update_sock i (sock_end_once false) >>>
        update_sock i (sock_error_once false) >>>
        destroy i >>>
        modify (fun this => with_stream this None)
    | None => ret tt
    end).

(** The listener that [close] puts on ['empty']. *)
Definition teardown : M unit :=
  match rev with
  | RevA => closeStream
  | RevB => closeSockets
  end.

(** [_close], the closure inside [close()], with its captured counter
    ([attempt] in RevA, [attempts] in RevB). *)
Definition _close (attempt : nat) : M unit :=
  match rev with
  | RevA =>
      withThis (fun this =>
        if (6 <=? attempt)%nat || (length (deferredQueue this) <=? 0)%nat then
          modify (fun this => with_shutdown this true) >>>
          try_catch
            (withThis (fun this =>
               match socket this with
               | Some i => destroy i >>> modify (fun this => with_socket this None)
               | None => ret tt
               end) >>>
             withThis (fun this =>
               match stream this with
               | Some i =>
                   if Opt.flushOnClose (options this)
                      && (0 <? length (deferredQueue this))%nat
                   then update_sock i sock_add_empty_listener
                   else closeStream
               | None => ret tt
               end))
            (setTimeout (TClose (S attempt)) (Some (200 * Z.of_nat (S attempt))%Z))
        else
          setTimeout (TClose (S attempt)) (Some (200 * Z.of_nat (S attempt))%Z))
  | RevB =>
      try_catch
        (withThis (fun this =>
           match stream this with
           | Some i =>
               if Opt.flushOnClose (options this)
                  && (0 <? length (deferredQueue this))%nat
               then update_sock i sock_add_empty_listener
               else closeSockets
           | None => ret tt
           end) >>>
         modify (fun this => with_shutdown this false))
        (if (S attempt <? 3)%nat
         then setTimeout (TClose (S attempt)) (Some (100 + Z.of_nat (S attempt))%Z)
         else ret tt)
  end.

(** [close()] *)
Definition close : M unit :=
  match rev with
  | RevA => _close 0
  | RevB => modify (fun this => with_shutdown this true) >>> _close 0
  end.

(** [connect()].  The [setKeepAlive] calls change nothing that is modelled
    and are left out. *)
Definition connect : M unit :=
  withThis (fun this =>
    if _shutdown this || _erroring this then ret tt
    else
      close >>>
      try_catch
        (withThis (fun this =>
           if Opt.disableTls (options this) then
             i <-- createConnection CbOnConnected ;
             modify (fun this => with_stream this (Some i)) >>>
             update_sock i (sock_error_once true) >>>
             update_sock i (sock_end_once true)
           else
             i <-- createConnection CbTlsUpgrade ;
             modify (fun this => with_socket this (Some i)) >>>
             update_sock i (sock_error_once true)))
        onErrored).

(** The callback of the raw socket in the TLS branch of [connect]. *)
Definition tls_upgrade : M unit :=
  withThis (fun this =>
    match socket this with
    | None => throw                     (* this.socket!.setKeepAlive on undefined *)
    | Some _ =>
        i <-- tls_connect CbOnConnected ;
        modify (fun this => with_stream this (Some i)) >>>
        update_sock i (sock_error_once true) >>>
        update_sock i (sock_end_once true)
    end).

(** [write(text, callback)] *)
Definition write (text : string) (cb : option nat) : M unit :=
  let entry := {| buffer := text; callback := cb |} in
  let push := modify (fun this => with_deferredQueue this (deferredQueue this ++ [entry])) in
  withThis (fun this =>
    match stream this with
    | Some i =>
        if is_writable this i then
          match rev with
          | RevA => stream_write i entry
          | RevB => try_catch (stream_write i entry) push
          end
        else push
    | None => push
    end).

(** [deferredQueue.shift()] (RevA) / [deferredQueue.pop()] (RevB): the
    element taken and what is left of the array. *)
Definition take (q : list Entry) : option (Entry * list Entry) :=
  match rev with
  | RevA => match q with
            | [] => None
            | e :: q' => Some (e, q')
            end
  | RevB => match last q with
            | None => None
            | Some e => Some (e, removelast q)
            end
  end.

(** The [while (msg)] loop of [processBuffer], entered after the first
    [take].  Every turn takes one element, so the length of the queue
    bounds the number of turns. *)
Fixpoint drain (turns : nat) : M unit :=
  match turns with
  | O => ret tt
  | S turns' =>
      withThis (fun this =>
        match take (deferredQueue this) with
        | None => ret tt
        | Some (msg, rest) =>
            modify (fun this => with_deferredQueue this rest) >>>
            withThis (fun this =>
              match stream this with
              | Some i => stream_write i msg
              | None => throw
              end) >>>
            drain turns'
        end)
  end.

(** [emitter.emit(name)] with [n] listeners that all run [listener]. *)
Fixpoint emit (n : nat) (listener : M unit) : M unit :=
  match n with
  | O => ret tt
  | S n' => listener >>> emit n' listener
  end.

(** [processBuffer()] *)
Definition processBuffer : M unit :=
  withThis (fun this =>
    if (length (deferredQueue this) =? 0)%nat || negb (stream_is_writable this)
    then ret tt
    else
      drain (length (deferredQueue this)) >>>
      withThis (fun this =>
        match stream this with
        | Some i =>
            match heap this !! i with
            | Some s => emit (empty_listeners s) teardown
            | None => throw
            end
        | None => throw
        end)).

(** [onConnected()] *)
Definition onConnected : M unit :=
  modify (fun this => with_loggingEnabled this true) >>>
  modify (fun this => with_currentRetries this 0%Z) >>>
  modify (fun this => with_totalRetries this 0%Z) >>>
  modify (fun this => with_connectionDelay this (Opt.connectionDelay (options this))) >>>
  processBuffer >>>
  effect EmitConnect.

(** The arrow function that [onErrored] hands to [setTimeout]. *)
Definition onErrored_timeout : M unit :=
  withThis (fun this =>
    if js_lt (connectionDelay this) (Opt.maxDelayBetweenReconnection (options this))
       && js_ge (Some (currentRetries this)) (Opt.attemptsBeforeDecay (options this))
    then
      modify (fun this => with_connectionDelay this ((fun d => d * 2)%Z <$> connectionDelay this)) >>>
      modify (fun this => with_currentRetries this (currentRetries this + 1)%Z)
    else ret tt) >>>
  withThis (fun this =>
    if loggingEnabled this
       && js_ge (Some (totalRetries this)) (Opt.maximumAttempts (options this))
    then
      modify (fun this => with_loggingEnabled this false) >>>
      emitSilentError ErrMaximumRetries
    else ret tt) >>>
  modify (fun this => with_erroring this false) >>>
  connect.

(** [new PapertrailConnection(options)] *)
Definition new_connection (o : PapertrailTransportOptions) : PapertrailConnection :=
  {| options := o; connectionDelay := Opt.connectionDelay o;
     currentRetries := 0; totalRetries := 0; loggingEnabled := true;
     _shutdown := false; _erroring := false; deferredQueue := [];
     stream := None; socket := None;
     heap := []; timers := []; error_observers := 0; log := [] |}.

Definition constructor (o : PapertrailTransportOptions)
  : PapertrailConnection * Outcome unit :=
  if String.eqb (Opt.host o) "" || (Opt.port o =? 0)%Z
  then (new_connection o, Throw)
  else connect (new_connection o).

(** ** The event loop

    Everything that can happen to a connection: calls by the application,
    socket events delivered by the runtime, and timers that fire. *)
Inductive Event :=
| EvWrite (text : string) (cb : option nat)   (* connection.write(text, cb) *)
| EvClose                                     (* connection.close() *)
| EvOnError                                   (* connection.on('error', ...) *)
| EvSockConnect (i : nat)                     (* socket i: connected / handshake done *)
| EvSockError (i : nat)                       (* socket i: 'error' *)
| EvSockEnd (i : nat)                         (* socket i: 'end' *)
| EvWritable (i : nat) (b : bool)             (* the runtime changes socket i's writable *)
| EvFaulty (i : nat) (w d : bool)             (* the runtime decides that a write / destroy
                                                 on socket i raises from now on *)
| EvTimer (k : nat).                          (* the k-th pending timer fires *)

Definition run_connect_cb (cb : ConnectCb) : M unit :=
  match cb with
  | CbOnConnected => onConnected
  | CbTlsUpgrade => tls_upgrade
  end.

(** One turn of the event loop.  A destroyed socket delivers no events;
    Node destroys a socket that errors (without a call of the program, so
    nothing is logged), and a socket that ends stops being writable. *)
Definition step (ev : Event) : M unit :=
  match ev with
  | EvWrite text cb => write text cb
  | EvClose => close
  | EvOnError => modify (fun this => with_error_observers this (S (error_observers this)))
  | EvSockConnect i =>
      withThis (fun this =>
        match heap this !! i with
        | Some s =>
            if destroyed s then ret tt
            else match connect_cb s with
                 | Some cb => update_sock i (sock_connect_cb None) >>> run_connect_cb cb
                 | None => ret tt
                 end
        | None => ret tt
        end)
  | EvSockError i =>
      withThis (fun this =>
        match heap this !! i with
        | Some s =>
            if destroyed s then ret tt
            else
              update_sock i sock_destroyed >>>
              if error_once s
              then update_sock i (sock_error_once false) >>> onErrored
              else ret tt
        | None => ret tt
        end)
  | EvSockEnd i =>
      withThis (fun this =>
        match heap this !! i with
        | Some s =>
            if destroyed s then ret tt
            else
              update_sock i (sock_writable false) >>>
              if end_once s
              then update_sock i (sock_end_once false) >>> connect
              else ret tt
        | None => ret tt
        end)
  | EvWritable i b =>
      withThis (fun this =>
        match heap this !! i with
        | Some s => if destroyed s then ret tt else update_sock i (sock_writable b)
        | None => ret tt
        end)
  | EvFaulty i w d =>
      update_sock i (sock_write_throws w) >>> update_sock i (sock_destroy_throws d)
  | EvTimer k =>
      withThis (fun this =>
        match timers this !! k with
        | Some (t, _) =>
            modify (fun this => with_timers this (delete k (timers this))) >>>
            match t with
            | TReconnect => onErrored_timeout
            | TClose attempt => _close attempt
            end
        | None => ret tt
        end)
  end.

(** A run of the event loop; an exception that nothing catches ends it. *)
Fixpoint run (evs : list Event) : M unit :=
  match evs with
  | [] => ret tt
  | ev :: evs' => step ev >>> run evs'
  end.

End Connection.

(** ** PapertrailTransport: the message sender *)

(** The value handed to glossy as [severity]: a number from the level map,
    or (RevA only) the level string itself. *)
Inductive Severity :=
| SevNumber (n : Z)
| SevLevel (level : string).

(** The argument of [producer.produce]. *)
Record ProduceArgs := {
  severity : Severity;
  p_host : string;
  appName : string;
  date : nat;
  message : string
}.

(** [this.options] of the transport after [Object.assign({}, defaultOptions,
    options)], the fields [sendMessage] reads.  [levels] maps level strings
    to numbers. *)
Record SenderOptions := {
  levels : gmap string Z;
  hostname : string;
  program : string;
  logFormat : string -> string -> string      (* RevA only *)
}.

(** [defaultOptions.levels] *)
Definition defaultLevels (rev : Revision) : gmap string Z :=
  match rev with
  | RevA => list_to_map
      [("debug", 0); ("info", 1); ("notice", 2); ("warning", 3); ("warn", 3);
       ("error", 4); ("err", 4); ("crit", 5); ("alert", 6); ("emerg", 7)]%Z
  | RevB => list_to_map
      [("debug", 7); ("info", 6); ("notice", 5); ("warning", 4); ("warn", 4);
       ("error", 3); ("err", 3); ("crit", 2); ("alert", 1); ("emerg", 0)]%Z
  end.

(** [defaultOptions.logFormat] of RevA *)
Definition defaultLogFormat (level message : string) : string :=
  (level ++ " " ++ message)%string.

Definition defaultSenderOptions (rev : Revision) (hostname : string) : SenderOptions :=
  {| levels := defaultLevels rev; hostname := hostname;
     program := "default"; logFormat := defaultLogFormat |}.

Definition LF : ascii := "010"%char.
Definition CR : ascii := "013"%char.
Definition ESC : ascii := "027"%char.
Definition CRLF : string := String CR (String LF EmptyString).

(** [message.split('\n')] *)
Fixpoint split_lines (s : string) : list string :=
  match s with
  | EmptyString => [EmptyString]
  | String c s' =>
      if Ascii.eqb c LF then EmptyString :: split_lines s'
      else match split_lines s' with
           | l :: ls => String c l :: ls
           | [] => [String c EmptyString]
           end
  end.

Definition is_digit (c : ascii) : bool :=
  (48 <=? nat_of_ascii c)%nat && (nat_of_ascii c <=? 57)%nat.

(** Where the scan of [/\u001b\[\d+m/g] stands: the characters of a
    candidate match read so far are kept back until the match is decided. *)
Inductive EscState :=
| Plain
| AfterEsc
| AfterBracket
| InDigits.

(** [level.replace(/\u001b\[\d+m/g, '')], one character at a time;
    [held] is the candidate match read so far. *)
Fixpoint strip_escapes_from (st : EscState) (held : string) (s : string) : string :=
  match s with
  | EmptyString => held
  | String c s' =>
      let restart :=
        if Ascii.eqb c ESC then strip_escapes_from AfterEsc (String c EmptyString) s'
        else String c (strip_escapes_from Plain EmptyString s') in
      match st with
      | Plain => restart
      | AfterEsc =>
          if Ascii.eqb c "["%char
          then strip_escapes_from AfterBracket (held ++ String c EmptyString) s'
          else (held ++ restart)%string
      | AfterBracket =>
          if is_digit c
          then strip_escapes_from InDigits (held ++ String c EmptyString) s'
          else (held ++ restart)%string
      | InDigits =>
          if is_digit c
          then strip_escapes_from InDigits (held ++ String c EmptyString) s'
          else if Ascii.eqb c "m"%char
          then strip_escapes_from Plain EmptyString s'
          else (held ++ restart)%string
      end
  end.

Definition strip_escapes (level : string) : string :=
  strip_escapes_from Plain EmptyString level.

(** [x || y] where [x] is a lookup in [levels]: a missing key and the
    number 0 are both falsy. *)
Definition js_or {A} (x : option Z) (number : Z -> A) (y : A) : A :=
  match x with
  | Some n => if (n =? 0)%Z then y else number n
  | None => y
  end.

(** The lines that get a frame: all of them, except an empty last one. *)
Fixpoint framed_lines (lines : list string) : list string :=
  match lines with
  | [] => []
  | line :: rest =>
      match rest with
      | [] => if (String.length line =? 0)%nat then [] else [line]
      | _ :: _ => line :: framed_lines rest
      end
  end.

(** The gap in front of the line of index [i]. *)
Definition gap_at (i : nat) : string :=
  if (i =? 0)%nat then ""%string else "    "%string.

(** The value of the loop variable [gap] on entry to turn [i]. *)
Definition gap_before (i : nat) : string :=
  if (i <=? 1)%nat then ""%string else "    "%string.

Section Sender.
Variable rev : Revision.
(** glossy's [Produce#produce], with the facility fixed at construction *)
Variable produce : ProduceArgs -> string.
(** [new Date()] at the i-th turn of the loop *)
Variable now : nat -> nat.
Variable opts : SenderOptions.

(** The [severity] field built in the loop of [sendMessage]. *)
Definition resolve_severity (level : string) : Severity :=
  match rev with
  | RevA =>
      let cleanedLevel := strip_escapes level in
      js_or (levels opts !! cleanedLevel) SevNumber (SevLevel cleanedLevel)
  | RevB => js_or (levels opts !! level) SevNumber (SevNumber 5)
  end.

(** One [producer.produce({...}) + '\r\n'] of the loop, at index [i]. *)
Definition frame (level msg : string) (i : nat) (gap line : string) : string :=
  (produce {| severity := resolve_severity level;
              p_host := hostname opts;
              appName := program opts;
              date := now i;
              message := match rev with
                         | RevA => logFormat opts level (gap ++ line)
                         | RevB => msg
                         end |}
   ++ CRLF)%string.

(** The [for] loop of [sendMessage]: [i] is the index, [len] is
    [lines.length], [gap] and [msg] are the loop's variables. *)
Fixpoint sendMessage_loop (level message : string) (lines : list string)
         (i len : nat) (gap msg : string) : string :=
  match lines with
  | [] => msg
  | line :: rest =>
      if (String.length line =? 0)%nat && (i =? len - 1)%nat then msg
      else
        let gap := if (i =? 1)%nat then "    "%string else gap in
        sendMessage_loop level message rest (S i) len gap
                         (msg ++ frame level message i gap line)%string
  end.

(** The text that [sendMessage] hands to [connection.write]. *)
Definition sendMessage_text (level message : string) : string :=
  let lines := if (String.length message =? 0)%nat then [EmptyString]
               else split_lines message in
  sendMessage_loop level message lines 0 (length lines) "" "".

(** [sendMessage(level, message, callback)] *)
Definition sendMessage (level message : string) (cb : option nat) : M unit :=
  write rev (sendMessage_text level message) cb.

End Sender.

Section Frames.
Variable produce : ProduceArgs -> string.
Variable now : nat -> nat.
Variable opts : SenderOptions.

(** One frame per line, from index [i] on, each holding its own line
    behind its gap and ending in CRLF. *)
Fixpoint frames_from (level : string) (i : nat) (lines : list string) : string :=
  match lines with
  | [] => ""%string
  | line :: rest =>
      (produce {| severity := resolve_severity RevA opts level;
                  p_host := hostname opts; appName := program opts;
                  date := now i;
                  message := logFormat opts level (gap_at i ++ line) |}
       ++ CRLF ++ frames_from level (S i) rest)%string
  end.

(** What RevB's loop builds: as many frames as there are framed lines,
    every one holding the whole body. *)
Fixpoint whole_body_frames (level message : string) (i : nat)
         (lines : list string) : string :=
  match lines with
  | [] => ""%string
  | _ :: rest =>
      (produce {| severity := resolve_severity RevB opts level;
                  p_host := hostname opts; appName := program opts;
                  date := now i; message := message |}
       ++ CRLF ++ whole_body_frames level message (S i) rest)%string
  end.

End Frames.

(** ** Observations and scenarios used in the statements below *)

(** The options of the test suite ([host: 'localhost', port: 23456,
    attemptsBeforeDecay: 0, connectionDelay: 10000]) as RevB's transport
    hands them to its connection, that is merged over [defaultOptions]. *)
Definition test_options : PapertrailTransportOptions :=
  {| Opt.host := "localhost"; Opt.port := 23456;
     Opt.disableTls := false; Opt.flushOnClose := true;
     Opt.attemptsBeforeDecay := Some 0%Z; Opt.maximumAttempts := Some 25%Z;
     Opt.connectionDelay := Some 10000%Z;
     Opt.maxDelayBetweenReconnection := Some 60000%Z |}.

(** The same over plain TCP ([disableTls: true]). *)
Definition test_options_tcp : PapertrailTransportOptions :=
  {| Opt.host := "localhost"; Opt.port := 23456;
     Opt.disableTls := true; Opt.flushOnClose := true;
     Opt.attemptsBeforeDecay := Some 0%Z; Opt.maximumAttempts := Some 25%Z;
     Opt.connectionDelay := Some 10000%Z;
     Opt.maxDelayBetweenReconnection := Some 60000%Z |}.

(** [defaultOptions] of both revisions for the retry policy
    ([attemptsBeforeDecay: 5, maximumAttempts: 25, connectionDelay: 1000,
    maxDelayBetweenReconnection: 60000]), with RevB's [flushOnClose: true]. *)
Definition default_options : PapertrailTransportOptions :=
  {| Opt.host := "localhost"; Opt.port := 23456;
     Opt.disableTls := false; Opt.flushOnClose := true;
     Opt.attemptsBeforeDecay := Some 5%Z; Opt.maximumAttempts := Some 25%Z;
     Opt.connectionDelay := Some 1000%Z;
     Opt.maxDelayBetweenReconnection := Some 60000%Z |}.

(** A configuration whose retry budget is spent at once
    ([maximumAttempts: 0]). *)
Definition no_retry_options : PapertrailTransportOptions :=
  {| Opt.host := "localhost"; Opt.port := 23456;
     Opt.disableTls := false; Opt.flushOnClose := true;
     Opt.attemptsBeforeDecay := Some 0%Z; Opt.maximumAttempts := Some 0%Z;
     Opt.connectionDelay := Some 10000%Z;
     Opt.maxDelayBetweenReconnection := Some 60000%Z |}.

(** The state a list of events leads to, starting from construction. *)
Definition after (rev : Revision) (o : PapertrailTransportOptions)
           (evs : list Event) : PapertrailConnection * Outcome unit :=
  match constructor rev o with
  | (this, Ret _) => run rev evs this
  | (this, Throw) => (this, Throw)
  end.

Definition entry (text : string) : Entry := {| buffer := text; callback := None |}.

(** [n] failed connection attempts in a row over TLS, each followed by its
    reconnect timer: the raw socket of attempt [k] is socket [k]. *)
Fixpoint failed_attempts_from (k n : nat) : list Event :=
  match n with
  | O => []
  | S n' => EvSockError k :: EvTimer 0 :: failed_attempts_from (S k) n'
  end.

Definition failed_attempts (n : nat) : list Event := failed_attempts_from 0 n.

(** The payloads handed to [stream.write], in order. *)
Fixpoint writes (l : list Effect) : list Entry :=
  match l with
  | [] => []
  | Wrote _ e :: l' => e :: writes l'
  | _ :: l' => writes l'
  end.

(** The options a RevA application passes to ask for a flush on close; RevA
    hands the connection the options as given, without the defaults. *)
Definition flush_options_RevA : PapertrailTransportOptions :=
  {| Opt.host := "localhost"; Opt.port := 23456;
     Opt.disableTls := false; Opt.flushOnClose := true;
     Opt.attemptsBeforeDecay := Some 0%Z; Opt.maximumAttempts := None;
     Opt.connectionDelay := Some 10000%Z;
     Opt.maxDelayBetweenReconnection := None |}.

(** The six timers of a RevA [close()] that finds the queue non-empty. *)
Definition close_polls : list Event :=
  [EvTimer 0; EvTimer 0; EvTimer 0; EvTimer 0; EvTimer 0; EvTimer 0].

(** The body ["a\nb"]. *)
Definition two_lines : string := String "a" (String LF (String "b" EmptyString)).

(** A connection that has given up buffering and was then closed. *)
Definition degraded_closed (rev : Revision) : PapertrailConnection :=
  (after rev no_retry_options [EvSockError 0; EvTimer 0; EvClose]).1.

(** ** Predicates on runs *)

(** [post Q E m this]: running [m] on [this] ends in a state satisfying [Q]
    if it returns and [E] if it raises. *)
Definition post {A} (Q E : PapertrailConnection -> Prop) (m : M A)
           (this : PapertrailConnection) : Prop :=
  match m this with
  | (this', Ret _) => Q this'
  | (this', Throw) => E this'
  end.

(** In the effects [l], every [destroy] comes after a write of each entry
    of [q0]. *)
Definition flushed_first (q0 : list Entry) (l : list Effect) : Prop :=
  forall pre i suf, l = pre ++ Destroyed i :: suf ->
  forall e, e ∈ q0 -> e ∈ writes pre.

Section Account.
(** The entries to account for, and the log when the account starts. *)
Variable q0 : list Entry.
Variable L0 : list Effect.

(** Flushing on close is configured, and nothing was destroyed since the
    start unless every entry of [q0] had been written. *)
Definition guarded (this : PapertrailConnection) : Prop :=
  Opt.flushOnClose (options this) = true /\
  exists l, log this = L0 ++ l /\ flushed_first q0 l.

(** Moreover every entry of [q0] is still queued or was written. *)
Definition accounted (this : PapertrailConnection) : Prop :=
  Opt.flushOnClose (options this) = true /\
  exists l, log this = L0 ++ l /\ flushed_first q0 l /\
    forall e, e ∈ q0 -> e ∈ deferredQueue this \/ e ∈ writes l.

(** The same with an empty queue: every entry of [q0] was written. *)
Definition flushed (this : PapertrailConnection) : Prop :=
  accounted this /\ deferredQueue this = [].
End Account.

(** The guard of the first [if] of the timer. *)
Definition backoff_due (this : PapertrailConnection) : bool :=
  js_lt (connectionDelay this) (Opt.maxDelayBetweenReconnection (options this))
  && js_ge (Some (currentRetries this)) (Opt.attemptsBeforeDecay (options this)).

(** * Properties *)

(** ** Elementary facts about the method combinators *)

Lemma bind_modify {B} f (k : unit -> M B) this :
  bind (modify f) k this = k tt (f this).
Proof. reflexivity. Qed.

Lemma writes_app l1 l2 : writes (l1 ++ l2) = writes l1 ++ writes l2.
Proof.
  induction l1 as [|e l1 IH]; [reflexivity|].
  destruct e; simpl; rewrite ?IH; reflexivity.
Qed.

Lemma writes_Wrote i q : writes (map (Wrote i) q) = q.
Proof. induction q as [|e q IH]; simpl; congruence. Qed.

Lemma bind_Ret {A B} (m : M A) (k : A -> M B) this this' a :
  m this = (this', Ret a) -> bind m k this = k a this'.
Proof. unfold bind. intros ->. reflexivity. Qed.

Lemma with_deferredQueue_id this : with_deferredQueue this (deferredQueue this) = this.
Proof. destruct this; reflexivity. Qed.

Lemma with_log_id this : with_log this (log this) = this.
Proof. destruct this; reflexivity. Qed.

(** ** A small program logic for methods *)

Lemma post_ret {A} Q E (a : A) this : Q this -> post Q E (ret a) this.
Proof. exact id. Qed.

Lemma post_throw {A} Q E this : E this -> post Q E (@throw A) this.
Proof. exact id. Qed.

Lemma post_modify Q E f this : Q (f this) -> post Q E (modify f) this.
Proof. exact id. Qed.

Lemma post_withThis {A} Q E (k : PapertrailConnection -> M A) this :
  post Q E (k this) this -> post Q E (withThis k) this.
Proof. exact id. Qed.

Lemma post_bind {A B} I Q E (m : M A) (k : A -> M B) this :
  post I E m this ->
  (forall a this', I this' -> post Q E (k a) this') ->
  post Q E (bind m k) this.
Proof.
  unfold post, bind. destruct (m this) as [this' [a|]]; auto.
  intros H Hk. apply Hk, H.
Qed.

Lemma post_try {A} I Q E (body handler : M A) this :
  post Q I body this ->
  (forall this', I this' -> post Q E handler this') ->
  post Q E (try_catch body handler) this.
Proof.
  unfold post, try_catch. destruct (body this) as [this' [a|]]; auto.
  intros H Hk. apply Hk, H.
Qed.

Lemma post_bind_modify {B} Q E f (k : unit -> M B) this :
  post Q E (k tt) (f this) -> post Q E (bind (modify f) k) this.
Proof. exact id. Qed.

Lemma post_weaken {A} (Q E Q' E' : PapertrailConnection -> Prop) (m : M A) this :
  post Q E m this ->
  (forall c, Q c -> Q' c) -> (forall c, E c -> E' c) ->
  post Q' E' m this.
Proof. unfold post. destruct (m this) as [this' [a|]]; auto. Qed.

Lemma post_update_sock Q E i f this :
  Q this -> (forall h, Q (with_heap this h)) -> post Q E (update_sock i f) this.
Proof.
  intros H1 H2. unfold update_sock. apply post_modify.
  destruct (heap this !! i); auto.
Qed.

Lemma post_effect Q E e this :
  Q (with_log this (log this ++ [e])) -> post Q E (effect e) this.
Proof. exact id. Qed.

Lemma post_setTimeout Q E t d this :
  Q (with_timers this (timers this ++ [(t, d)])) -> post Q E (setTimeout t d) this.
Proof. exact id. Qed.

Lemma post_createConnection Q E cb this :
  (forall h, Q (with_heap this h)) -> E this -> post Q E (createConnection cb) this.
Proof.
  intros H1 H2. unfold createConnection. apply post_withThis.
  destruct (_ && _); [|exact H2]. apply H1.
Qed.

Lemma post_tls_connect Q E cb this :
  (forall h, Q (with_heap this h)) -> post Q E (tls_connect cb) this.
Proof. intros H1. apply H1. Qed.

Lemma post_stream_write Q E i e this :
  Q (with_log this (log this ++ [Wrote i e])) -> E this ->
  post Q E (stream_write i e) this.
Proof.
  intros H1 H2. unfold stream_write. apply post_withThis.
  destruct (heap this !! i) as [s|]; [|exact H2].
  destruct (write_throws s); [exact H2|exact H1].
Qed.

Lemma post_destroy Q E i this :
  (forall h, Q (with_log (with_heap this h) (log this ++ [Destroyed i]))) ->
  E this -> post Q E (destroy i) this.
Proof.
  intros H1 H2. unfold destroy. apply post_withThis.
  destruct (heap this !! i) as [s|] eqn:Hs; [|exact H2].
  destruct (destroy_throws s); [exact H2|].
  unfold post, bind, update_sock, modify, effect. rewrite Hs. apply H1.
Qed.

(** One step of symbolic execution with the intermediate assertion [I];
    goals about single state updates are left to [leaf]. *)
Ltac exec1 I leaf :=
  lazymatch goal with
  | |- post _ _ (ret _) _ => apply post_ret; leaf
  | |- post _ _ throw _ => apply post_throw; leaf
  | |- post _ _ (modify _) _ => apply post_modify; leaf
  | |- post _ _ (effect _) _ => apply post_effect; leaf
  | |- post _ _ (setTimeout _ _) _ => apply post_setTimeout; leaf
  | |- post _ _ (update_sock _ _) _ => apply post_update_sock; [leaf | intros ?; leaf]
  | |- post _ _ (createConnection _) _ => apply post_createConnection; [intros ?; leaf | leaf]
  | |- post _ _ (tls_connect _) _ => apply post_tls_connect; intros ?; leaf
  | |- post _ _ (stream_write _ _) _ => apply post_stream_write; leaf
  | |- post _ _ (destroy _) _ => apply post_destroy; [intros ?; leaf | leaf]
  | |- post _ _ (withThis _) _ => apply post_withThis
  | |- post _ _ (bind (modify _) _) _ => apply post_bind_modify
  | |- post _ _ (bind _ _) _ => apply (post_bind I); [ | intros ? ? ?]
  | |- post _ _ (try_catch _ _) _ => apply (post_try I); [ | intros ? ?]
  | |- post _ _ (match ?x with _ => _ end) _ => destruct x eqn:?
  end.

Ltac exec I leaf := repeat exec1 I leaf.

(** ** write *)

(** The branch of [write] taken when the stream is absent or not writable:
    the entry goes to the tail of the queue and nothing else changes. *)
Lemma write_push rev text cb this :
  stream_is_writable this = false ->
  write rev text cb this =
    (with_deferredQueue this
       (deferredQueue this ++ [{| buffer := text; callback := cb |}]), Ret tt).
Proof.
  unfold stream_is_writable, write, withThis.
  destruct (stream this) as [i|]; [|reflexivity].
  intros ->. reflexivity.
Qed.

(** RevB's [write] returns normally in every state. *)
Lemma write_RevB_returns text cb this :
  (write RevB text cb this).2 = Ret tt.
Proof.
  unfold write, withThis.
  destruct (stream this) as [i|]; [|reflexivity].
  destruct (is_writable this i); [|reflexivity].
  unfold try_catch, stream_write, withThis.
  destruct (heap this !! i) as [s|]; [|reflexivity].
  destruct (write_throws s); reflexivity.
Qed.

(** RevB: when the synchronous write raises, the entry is queued. *)
Lemma write_RevB_falls_back text cb this i s :
  stream this = Some i -> heap this !! i = Some s ->
  writable s = true -> write_throws s = true ->
  write RevB text cb this =
    (with_deferredQueue this
       (deferredQueue this ++ [{| buffer := text; callback := cb |}]), Ret tt).
Proof.
  intros Hs Hh Hw Ht. unfold write, withThis, is_writable.
  rewrite Hs, Hh, Hw. unfold try_catch, stream_write, withThis.
  rewrite Hh, Ht. reflexivity.
Qed.

(** C10: whenever the stream is absent or not writable, in every state of
    the connection, [write] returns normally after appending the
    (payload, callback) pair to the tail of the queue; it changes nothing
    else and discards nothing. *)
Theorem C10_write_always_queues rev text cb this :
  stream_is_writable this = false ->
  write rev text cb this =
    (with_deferredQueue this
       (deferredQueue this ++ [{| buffer := text; callback := cb |}]), Ret tt).
Proof. apply write_push. Qed.

Lemma C10_write_always_queues_witness :
  loggingEnabled (degraded_closed RevA) = false /\
  write RevA "late" (Some 7) (degraded_closed RevA) =
    (with_deferredQueue (degraded_closed RevA)
       (deferredQueue (degraded_closed RevA)
        ++ [{| buffer := "late"; callback := Some 7 |}]), Ret tt).
Proof.
  split; [vm_compute; reflexivity|].
  apply (C10_write_always_queues RevA "late" (Some 7) (degraded_closed RevA)).
  vm_compute. reflexivity.
Defined.

(** C7: [write] never raises; a synchronous failure of the stream's write
    queues the payload.  RevA calls [stream.write] outside any [try]: the
    exception reaches the caller and the payload is neither written nor
    queued.  (RevB catches it: [write_RevB_returns],
    [write_RevB_falls_back].) *)
Theorem C7_RevA_write_raises :
  let this := (after RevA test_options_tcp [EvFaulty 0 true false]).1 in
  stream_is_writable this = true /\
  (write RevA "text" None this).2 = Throw /\
  deferredQueue (write RevA "text" None this).1 = [] /\
  log (write RevA "text" None this).1 = [].
Proof. vm_compute. repeat split; reflexivity. Qed.

(** C4: once [loggingEnabled] is false, a write on a stream that is not
    writable is dropped.  In both revisions [write] never reads
    [loggingEnabled]: after the retry budget is spent the payload is queued
    all the same. *)
Theorem C4_write_queues_while_degraded rev :
  let this := (after rev no_retry_options [EvSockError 0; EvTimer 0]).1 in
  loggingEnabled this = false /\
  stream_is_writable this = false /\
  deferredQueue this = [] /\
  deferredQueue (step rev (EvWrite "late" None) this).1 = [entry "late"].
Proof. destruct rev; vm_compute; repeat split; reflexivity. Qed.

(** ** processBuffer *)

Lemma take_RevB_snoc q e : take RevB (q ++ [e]) = Some (e, q).
Proof.
  unfold take. rewrite last_snoc. f_equal. f_equal.
  apply removelast_last.
Qed.

Lemma take_RevB_Some q e rest : take RevB q = Some (e, rest) -> q = rest ++ [e].
Proof.
  unfold take. destruct q as [|x q _] using rev_ind; [discriminate|].
  rewrite last_snoc, removelast_last. intros [= <- <-]. reflexivity.
Qed.

Lemma take_RevB_None q : take RevB q = None -> q = [].
Proof.
  unfold take. destruct q as [|x q _] using rev_ind; [reflexivity|].
  rewrite last_snoc. discriminate.
Qed.

Lemma take_length rev q e rest :
  take rev q = Some (e, rest) -> length q = S (length rest).
Proof.
  destruct rev.
  - destruct q as [|x q]; [discriminate|]. intros [= <- <-]. reflexivity.
  - intros ->%take_RevB_Some. rewrite length_app. cbn. lia.
Qed.

Lemma take_None rev q : take rev q = None -> q = [].
Proof.
  destruct rev; [|apply take_RevB_None].
  destruct q; [reflexivity|discriminate].
Qed.

(** The loop is given as many turns as the queue is long, and that is
    enough: when it returns, the queue is empty. *)
Lemma drain_empties_queue rev turns : forall this,
  length (deferredQueue this) <= turns ->
  post (fun c => deferredQueue c = []) (fun _ => True) (drain rev turns) this.
Proof.
  induction turns as [|turns IH]; intros this Hlen; cbn [drain].
  - apply post_ret. destruct (deferredQueue this); [reflexivity|cbn in Hlen; lia].
  - apply post_withThis.
    destruct (take rev (deferredQueue this)) as [[msg rest]|] eqn:Htake.
    + apply take_length in Htake. apply post_bind_modify.
      apply (post_bind (fun c => length (deferredQueue c) <= turns)).
      * apply post_withThis. cbn.
        destruct (stream this); [|exact I].
        apply post_stream_write; [cbn; lia|exact I].
      * intros _ this' H'. apply IH, H'.
    + apply post_ret, (take_None rev), Htake.
Qed.

(** RevA's loop hands the whole queue to the stream, head first. *)
Lemma drain_RevA_fifo q : forall this i s,
  deferredQueue this = q -> stream this = Some i ->
  heap this !! i = Some s -> write_throws s = false ->
  drain RevA (length q) this =
    (with_log (with_deferredQueue this []) (log this ++ map (Wrote i) q), Ret tt).
Proof.
  induction q as [|e q IH]; intros this i s Hq Hs Hh Ht.
  - simpl. unfold ret. rewrite app_nil_r. destruct this; simpl in *; subst; reflexivity.
  - simpl. unfold withThis at 1. rewrite Hq. simpl.
    rewrite bind_modify. unfold bind at 1, withThis at 1. simpl. rewrite Hs.
    unfold stream_write, withThis. simpl. rewrite Hh, Ht.
    unfold effect, modify. simpl.
    erewrite IH; simpl; eauto.
    rewrite <- app_assoc. reflexivity.
Qed.

(** RevB's loop hands the whole queue to the stream, tail first. *)
Lemma drain_RevB_lifo q : forall this i s,
  deferredQueue this = q -> stream this = Some i ->
  heap this !! i = Some s -> write_throws s = false ->
  drain RevB (length q) this =
    (with_log (with_deferredQueue this []) (log this ++ map (Wrote i) (reverse q)),
     Ret tt).
Proof.
  induction q as [|e q IH] using rev_ind; intros this i s Hq Hs Hh Ht.
  - simpl. unfold ret. rewrite app_nil_r. destruct this; simpl in *; subst; reflexivity.
  - rewrite length_app, Nat.add_comm. cbn [length Nat.add drain].
    unfold withThis at 1. rewrite Hq, take_RevB_snoc.
    rewrite bind_modify. unfold bind at 1, withThis at 1. simpl. rewrite Hs.
    unfold stream_write, withThis. simpl. rewrite Hh, Ht.
    unfold effect, modify. simpl.
    erewrite IH; simpl; eauto.
    rewrite reverse_app. simpl. rewrite <- app_assoc. reflexivity.
Qed.

(** RevA's [processBuffer] on a writable stream with no ['empty'] listener. *)
Lemma processBuffer_RevA_fifo this i s :
  stream this = Some i -> heap this !! i = Some s ->
  writable s = true -> write_throws s = false -> empty_listeners s = 0 ->
  processBuffer RevA this =
    (with_log (with_deferredQueue this [])
              (log this ++ map (Wrote i) (deferredQueue this)), Ret tt).
Proof.
  intros Hs Hh Hw Ht He.
  unfold processBuffer, withThis at 1, stream_is_writable, is_writable.
  rewrite Hs, Hh, Hw.
  destruct (deferredQueue this) as [|e q] eqn:Hq.
  - cbn. rewrite app_nil_r, <- Hq, with_deferredQueue_id, with_log_id. reflexivity.
  - cbn [length Nat.eqb orb negb].
    erewrite bind_Ret by (eapply (drain_RevA_fifo (e :: q)); eauto).
    unfold withThis. cbn. rewrite Hs, Hh, He. reflexivity.
Qed.

(** RevB's [processBuffer] in the same situation: newest entry first. *)
Lemma processBuffer_RevB_lifo this i s :
  stream this = Some i -> heap this !! i = Some s ->
  writable s = true -> write_throws s = false -> empty_listeners s = 0 ->
  processBuffer RevB this =
    (with_log (with_deferredQueue this [])
              (log this ++ map (Wrote i) (reverse (deferredQueue this))), Ret tt).
Proof.
  intros Hs Hh Hw Ht He.
  unfold processBuffer, withThis at 1, stream_is_writable, is_writable.
  rewrite Hs, Hh, Hw.
  destruct (deferredQueue this) as [|e q] eqn:Hq.
  - cbn. rewrite app_nil_r, <- Hq, with_deferredQueue_id, with_log_id. reflexivity.
  - cbn [length Nat.eqb orb negb].
    erewrite bind_Ret by (eapply (drain_RevB_lifo (e :: q)); eauto).
    unfold withThis. cbn [stream heap with_log with_deferredQueue].
    rewrite Hs, Hh, He. reflexivity.
Qed.

(** RevA's [onConnected] on a writable stream with no ['empty'] listener:
    the queue goes out in enqueue order, is left empty, and ['connect'] is
    announced after the last queued payload. *)
Lemma onConnected_RevA_fifo this i s :
  stream this = Some i -> heap this !! i = Some s ->
  writable s = true -> write_throws s = false -> empty_listeners s = 0 ->
  exists this',
    onConnected RevA this = (this', Ret tt) /\
    deferredQueue this' = [] /\
    stream this' = Some i /\ heap this' = heap this /\
    log this' = log this ++ map (Wrote i) (deferredQueue this) ++ [EmitConnect].
Proof.
  intros Hs Hh Hw Ht He.
  unfold onConnected. rewrite !bind_modify.
  erewrite bind_Ret by (eapply processBuffer_RevA_fifo; cbn; eauto).
  eexists. split; [reflexivity|]. cbn. rewrite <- app_assoc. auto.
Qed.

(** RevA: a payload written after the flush follows every flushed payload. *)
Lemma onConnected_RevA_then_write this i s text cb :
  stream this = Some i -> heap this !! i = Some s ->
  writable s = true -> write_throws s = false -> empty_listeners s = 0 ->
  writes (log (run RevA [EvWrite text cb] (onConnected RevA this).1).1) =
    writes (log this) ++ deferredQueue this ++ [{| buffer := text; callback := cb |}].
Proof.
  intros Hs Hh Hw Ht He.
  destruct (onConnected_RevA_fifo this i s Hs Hh Hw Ht He)
    as (this' & -> & Hq & Hs' & Hh' & Hl).
  simpl. unfold bind, write, withThis. rewrite Hs'.
  unfold is_writable. rewrite Hh', Hh, Hw.
  unfold stream_write, withThis. rewrite Hh', Hh, Ht. simpl.
  rewrite Hl, !writes_app, writes_Wrote. simpl.
  rewrite <- !app_assoc. reflexivity.
Qed.

(** The same two writes on the two revisions: RevA delivers them in the
    order they were issued. *)
Example RevA_flushes_oldest_first :
  log (after RevA test_options
         [EvWrite "first" None; EvWrite "second" None;
          EvSockConnect 0; EvSockConnect 1]).1
  = [Wrote 1 (entry "first"); Wrote 1 (entry "second"); EmitConnect].
Proof. vm_compute. reflexivity. Qed.

(** C1: queued payloads are flushed in enqueue order on connect.  RevB takes
    the entries with [pop()]: two payloads queued before the connection is
    up reach the stream last-in-first-out, ["second"] before ["first"].
    (RevA's [shift()] loop keeps the order: [onConnected_RevA_fifo].) *)
Theorem C1_RevB_flushes_newest_first :
  log (after RevB test_options
         [EvWrite "first" None; EvWrite "second" None;
          EvSockConnect 0; EvSockConnect 1]).1
  = [Wrote 1 (entry "second"); Wrote 1 (entry "first"); EmitConnect].
Proof. vm_compute. reflexivity. Qed.

(** ** Invariants of single state updates

    [P] is assumed to survive the state updates that the methods make; a
    lemma below depends on the assumptions for the updates its method
    makes, and on no other. *)

Section Stable.
Variable rev : Revision.
Variable P : PapertrailConnection -> Prop.
(* the four resets of onConnected *)
Hypothesis st_connectionDelay : forall c,
  P c -> P (with_connectionDelay c (Opt.connectionDelay (options c))).
Hypothesis st_currentRetries : forall c, P c -> P (with_currentRetries c 0%Z).
Hypothesis st_totalRetries : forall c, P c -> P (with_totalRetries c 0%Z).
Hypothesis st_loggingEnabled : forall c, P c -> P (with_loggingEnabled c true).
(* the backoff of the reconnect timer, under its guard *)
Hypothesis st_backoff : forall c, P c ->
  js_lt (connectionDelay c) (Opt.maxDelayBetweenReconnection (options c))
  && js_ge (Some (currentRetries c)) (Opt.attemptsBeforeDecay (options c)) = true ->
  P (with_currentRetries
       (with_connectionDelay c ((fun d => d * 2)%Z <$> connectionDelay c))
       (currentRetries c + 1)%Z).
(* the one update that switches buffering off, under its guard *)
Hypothesis st_degrade : forall c, P c ->
  loggingEnabled c && js_ge (Some (totalRetries c)) (Opt.maximumAttempts (options c)) = true ->
  P (with_loggingEnabled c false).
Hypothesis st_shutdown_true : forall c, P c -> P (with_shutdown c true).
(* only RevB sets _shutdown back *)
Hypothesis st_shutdown_false : rev = RevB -> forall c, P c -> P (with_shutdown c false).
Hypothesis st_erroring : forall c v, P c -> P (with_erroring c v).
Hypothesis st_deferredQueue : forall c v, P c -> P (with_deferredQueue c v).
Hypothesis st_stream : forall c v, P c -> P (with_stream c v).
Hypothesis st_socket : forall c v, P c -> P (with_socket c v).
Hypothesis st_heap : forall c v, P c -> P (with_heap c v).
Hypothesis st_timers : forall c v, P c -> P (with_timers c v).
Hypothesis st_error_observers : forall c v, P c -> P (with_error_observers c v).
Hypothesis st_log : forall c e, P c -> P (with_log c (log c ++ [e])).

Local Ltac leaf :=
  repeat lazymatch goal with
  | H : P ?c |- P ?c => exact H
  | |- P (with_currentRetries (with_connectionDelay ?c _) (_ + 1)%Z) =>
      apply (st_backoff c); [|assumption]
  | |- P (with_connectionDelay ?c _) => apply (st_connectionDelay c)
  | |- P (with_currentRetries ?c _) => apply (st_currentRetries c)
  | |- P (with_totalRetries ?c _) => apply (st_totalRetries c)
  | |- P (with_loggingEnabled ?c true) => apply (st_loggingEnabled c)
  | |- P (with_loggingEnabled ?c false) => apply (st_degrade c); [|assumption]
  | |- P (with_shutdown ?c true) => apply (st_shutdown_true c)
  | |- P (with_shutdown ?c false) => apply (st_shutdown_false eq_refl c)
  | |- P (with_erroring ?c ?v) => apply (st_erroring c v)
  | |- P (with_deferredQueue ?c ?v) => apply (st_deferredQueue c v)
  | |- P (with_stream ?c ?v) => apply (st_stream c v)
  | |- P (with_socket ?c ?v) => apply (st_socket c v)
  | |- P (with_heap ?c ?v) => apply (st_heap c v)
  | |- P (with_timers ?c ?v) => apply (st_timers c v)
  | |- P (with_error_observers ?c ?v) => apply (st_error_observers c v)
  | |- P (with_log ?c _) => apply (st_log c)
  end.

Local Ltac go := exec P leaf.

Lemma stable_emitSilentError err this : P this -> post P P (emitSilentError err) this.
Proof. intros H. unfold emitSilentError. go. Qed.

Lemma stable_onErrored this : P this -> post P P onErrored this.
Proof.
  intros H. unfold onErrored. go. apply stable_emitSilentError. leaf.
Qed.

Lemma stable_closeStream this : P this -> post P P closeStream this.
Proof. intros H. unfold closeStream. go. Qed.

Lemma stable_closeSockets this : P this -> post P P closeSockets this.
Proof. intros H. unfold closeSockets. go. Qed.

Lemma stable_teardown this : P this -> post P P (teardown rev) this.
Proof.
  intros H. unfold teardown.
  pose proof stable_closeStream as Ha. pose proof stable_closeSockets as Hb.
  destruct rev; [apply Ha | apply Hb]; leaf.
Qed.

Lemma stable__close attempt this : P this -> post P P (_close rev attempt) this.
Proof.
  intros H. unfold _close.
  pose proof stable_closeStream as Ha. pose proof stable_closeSockets as Hb.
  destruct rev; go; first [ apply Ha | apply Hb ]; leaf.
Qed.

Lemma stable_close this : P this -> post P P (close rev) this.
Proof.
  intros H. unfold close. pose proof stable__close as Hc.
  destruct rev; go; apply Hc; leaf.
Qed.

Lemma stable_connect this : P this -> post P P (connect rev) this.
Proof.
  intros H. unfold connect. go.
  - apply stable_close; leaf.
  - apply stable_onErrored; leaf.
Qed.

Lemma stable_tls_upgrade this : P this -> post P P tls_upgrade this.
Proof. intros H. unfold tls_upgrade. go. Qed.

Lemma stable_write text cb this : P this -> post P P (write rev text cb) this.
Proof. intros H. unfold write. cbv zeta. destruct rev; go. Qed.

Lemma stable_drain turns : forall this, P this -> post P P (drain rev turns) this.
Proof.
  induction turns as [|turns IH]; intros this H; cbn [drain]; go.
  apply IH; leaf.
Qed.

Lemma stable_emit n (listener : M unit) :
  (forall this, P this -> post P P listener this) ->
  forall this, P this -> post P P (emit n listener) this.
Proof.
  intros Hl. induction n as [|n IH]; intros this H; cbn [emit]; go; [apply Hl|apply IH]; leaf.
Qed.

Lemma stable_processBuffer this : P this -> post P P (processBuffer rev) this.
Proof.
  intros H. unfold processBuffer. go.
  - apply stable_drain; leaf.
  - apply stable_emit; [apply stable_teardown | leaf].
Qed.

Lemma stable_onConnected this : P this -> post P P (onConnected rev) this.
Proof. intros H. unfold onConnected. go. apply stable_processBuffer. leaf. Qed.

Lemma stable_onErrored_timeout this : P this -> post P P (onErrored_timeout rev) this.
Proof.
  intros H. unfold onErrored_timeout. go.
  - apply stable_emitSilentError. leaf.
  - apply stable_connect. leaf.
Qed.

Lemma stable_step ev this : P this -> post P P (step rev ev) this.
Proof.
  intros H. unfold step, run_connect_cb. destruct ev; go;
    first [ apply stable_write | apply stable_close | apply stable_onConnected
          | apply stable_tls_upgrade | apply stable_onErrored | apply stable_connect
          | apply stable_onErrored_timeout | apply stable__close ]; leaf.
Qed.

Lemma stable_run evs : forall this, P this -> post P P (run rev evs) this.
Proof.
  induction evs as [|ev evs IH]; intros this H; cbn [run]; go.
  - apply stable_step; leaf.
  - apply IH; leaf.
Qed.

End Stable.

Lemma post_same {A} (P : PapertrailConnection -> Prop) (m : M A) this :
  post P P m this -> P (m this).1.
Proof. unfold post. destruct (m this) as [this' [a|]]; auto. Qed.

(** What the constructor builds satisfies what [new_connection] satisfies,
    given that [connect] keeps it. *)
Lemma after_keeps rev (P : PapertrailConnection -> Prop) o evs :
  P (new_connection o) ->
  (forall this, P this -> post P P (connect rev) this) ->
  (forall evs this, P this -> post P P (run rev evs) this) ->
  P (after rev o evs).1.
Proof.
  intros H0 Hc Hr. unfold after, constructor.
  destruct (_ || _); [exact H0|].
  pose proof (Hc _ H0) as H1. unfold post in H1.
  destruct (connect rev (new_connection o)) as [this [[]|]]; [|exact H1].
  apply post_same, Hr, H1.
Qed.

Local Ltac stable_by L := apply L; intros; first [assumption | reflexivity | discriminate].

(** No event ever changes [totalRetries]: it is 0 in every reachable state. *)
Theorem totalRetries_stays_zero rev o evs : totalRetries (after rev o evs).1 = 0%Z.
Proof.
  apply (after_keeps rev (fun c => totalRetries c = 0%Z)); [reflexivity| |].
  - intros this H. stable_by stable_connect.
  - intros evs' this H. stable_by stable_run.
Qed.

(** So with a positive (or absent) [maximumAttempts] the retry budget is
    never found spent: [loggingEnabled] is true in every reachable state. *)
Theorem buffering_is_never_disabled rev o evs :
  (forall n, Opt.maximumAttempts o = Some n -> (0 < n)%Z) ->
  loggingEnabled (after rev o evs).1 = true.
Proof.
  intros Hmax.
  set (P := fun c => options c = o /\ totalRetries c = 0%Z /\ loggingEnabled c = true).
  assert (Hst : forall c, P c ->
    loggingEnabled c && js_ge (Some (totalRetries c)) (Opt.maximumAttempts (options c)) = true ->
    P (with_loggingEnabled c false)).
  { intros c (Ho & Ht & Hl) Hg. exfalso. rewrite Ho, Ht, Hl in Hg. cbn in Hg.
    destruct (Opt.maximumAttempts o) as [n|] eqn:Hn; [|discriminate].
    specialize (Hmax n eq_refl). apply Z.leb_le in Hg. lia. }
  enough (P (after rev o evs).1) as (_ & _ & H) by exact H.
  assert (Hside : forall c c', P c ->
            options c' = options c -> totalRetries c' = 0%Z ->
            loggingEnabled c' = true -> P c').
  { intros c c' (Ho & _ & _) Ho' Ht' Hl'. repeat split; congruence. }
  apply after_keeps; [repeat split| |].
  - intros this H. apply stable_connect; try exact H; intros;
      first [ apply Hst; assumption
            | eapply Hside; [eassumption|reflexivity| |];
              match goal with H : P _ |- _ => destruct H as (_ & ? & ?) end;
              first [assumption | reflexivity] ].
  - intros evs' this H. apply stable_run; try exact H; intros;
      first [ apply Hst; assumption
            | eapply Hside; [eassumption|reflexivity| |];
              match goal with H : P _ |- _ => destruct H as (_ & ? & ?) end;
              first [assumption | reflexivity] ].
Qed.

(** C5: every failed attempt increments [totalRetries], which switches
    buffering off at [maximumAttempts].  No statement of either revision
    increments the counter: after 26 failed attempts under the default
    policy (maximumAttempts 25) it is still 0, [loggingEnabled] is still
    true and only connection errors were reported. *)
Theorem C5_totalRetries_is_never_incremented :
  let this := (after RevB default_options (failed_attempts 26)).1 in
  totalRetries this = 0%Z /\
  loggingEnabled this = true /\
  ~ In (ConsoleError ErrMaximumRetries) (log this) /\
  length (log this) = 26.
Proof.
  vm_compute. repeat split; try reflexivity.
  intros H. repeat (destruct H as [H|H]; [discriminate H|]). exact H.
Qed.

(** ** The backoff of the reconnect timer *)

(** What the timer does to the delay: doubled under the guard, kept
    otherwise; the rest of the timer leaves it alone. *)
Lemma connectionDelay_after_timeout rev this :
  connectionDelay (onErrored_timeout rev this).1 =
    if backoff_due this then (fun d => d * 2)%Z <$> connectionDelay this
    else connectionDelay this.
Proof.
  set (d := if backoff_due this then _ else _).
  apply (post_same (fun c => connectionDelay c = d)).
  unfold onErrored_timeout. apply (post_bind (fun c => connectionDelay c = d)).
  - apply post_withThis. subst d. unfold backoff_due.
    destruct (_ && _); [|apply post_ret; reflexivity].
    apply post_bind_modify, post_modify. reflexivity.
  - intros _ this' H'.
    exec (fun c => connectionDelay c = d) ltac:(try exact H'; try assumption).
    + apply stable_emitSilentError; intros; assumption.
    + apply stable_connect; intros; assumption.
Qed.

(** A delay that is not negative never shrinks. *)
Lemma backoff_is_monotone rev this d :
  connectionDelay this = Some d -> (0 <= d)%Z ->
  exists d', connectionDelay (onErrored_timeout rev this).1 = Some d' /\ (d <= d')%Z.
Proof.
  intros Hd Hpos. rewrite connectionDelay_after_timeout, Hd.
  destruct (backoff_due this); cbn; eexists; split; try reflexivity; lia.
Qed.

(** The delay changes only when [currentRetries] has reached
    [attemptsBeforeDecay] and the delay is below the maximum. *)
Lemma backoff_only_past_threshold rev this :
  connectionDelay (onErrored_timeout rev this).1 <> connectionDelay this ->
  exists d m a,
    connectionDelay this = Some d /\
    Opt.maxDelayBetweenReconnection (options this) = Some m /\
    Opt.attemptsBeforeDecay (options this) = Some a /\
    (d < m)%Z /\ (a <= currentRetries this)%Z.
Proof.
  rewrite connectionDelay_after_timeout. unfold backoff_due, js_lt, js_ge.
  destruct (connectionDelay this) as [d|]; [|cbn; congruence].
  destruct (Opt.maxDelayBetweenReconnection (options this)) as [m|]; [|cbn; congruence].
  destruct (Opt.attemptsBeforeDecay (options this)) as [a|];
    [|rewrite andb_false_r; congruence].
  destruct (Z.ltb_spec d m); [|cbn; congruence].
  destruct (Z.leb_spec a (currentRetries this)); [|cbn; congruence].
  intros _. exists d, m, a. auto.
Qed.

(** What the guard does bound: a delay below twice the maximum stays below
    twice the maximum. *)
Lemma backoff_below_twice_maximum rev this d m :
  connectionDelay this = Some d ->
  Opt.maxDelayBetweenReconnection (options this) = Some m ->
  (d < 2 * m)%Z ->
  exists d', connectionDelay (onErrored_timeout rev this).1 = Some d' /\ (d' < 2 * m)%Z.
Proof.
  intros Hd Hm Hlt. rewrite connectionDelay_after_timeout.
  unfold backoff_due, js_lt. rewrite Hd, Hm.
  destruct (Z.ltb_spec d m); cbn [andb].
  - destruct (js_ge _ _); cbn; eexists; split; try reflexivity; lia.
  - eexists; split; try reflexivity; lia.
Qed.

(** [currentRetries] moves only together with the delay, so it counts
    doublings, not failures: with a positive [attemptsBeforeDecay] the
    guard never holds and the delay keeps its configured value for good. *)
Theorem positive_threshold_never_backs_off rev o evs :
  (forall a, Opt.attemptsBeforeDecay o = Some a -> (0 < a)%Z) ->
  connectionDelay (after rev o evs).1 = Opt.connectionDelay o /\
  currentRetries (after rev o evs).1 = 0%Z.
Proof.
  intros Ha.
  set (P := fun c => options c = o /\ currentRetries c = 0%Z /\
                     connectionDelay c = Opt.connectionDelay o).
  assert (Hst : forall c, P c -> backoff_due c = true ->
    P (with_currentRetries
         (with_connectionDelay c ((fun d => d * 2)%Z <$> connectionDelay c))
         (currentRetries c + 1)%Z)).
  { intros c (Ho & Hc & _) Hg. exfalso. unfold backoff_due in Hg.
    rewrite Ho, Hc in Hg. apply andb_true_iff in Hg as [_ Hg].
    destruct (Opt.attemptsBeforeDecay o) as [a|] eqn:Hn; [|discriminate].
    specialize (Ha a eq_refl). cbn in Hg. apply Z.leb_le in Hg. lia. }
  enough (P (after rev o evs).1) as (_ & H1 & H2) by (split; assumption).
  assert (Hside : forall c c', P c ->
            options c' = options c -> currentRetries c' = 0%Z ->
            connectionDelay c' = Opt.connectionDelay (options c) -> P c').
  { intros c c' (Ho & _ & _) Ho' Ht' Hl'. repeat split; congruence. }
  apply after_keeps; [repeat split| |].
  - intros this H. apply stable_connect; try exact H; intros;
      first [ apply Hst; assumption
            | eapply Hside; [eassumption|reflexivity| |];
              match goal with H : P _ |- _ => destruct H as (? & ? & ?) end;
              cbn; congruence ].
  - intros evs' this H. apply stable_run; try exact H; intros;
      first [ apply Hst; assumption
            | eapply Hside; [eassumption|reflexivity| |];
              match goal with H : P _ |- _ => destruct H as (? & ? & ?) end;
              cbn; congruence ].
Qed.

(** C3: the backoff delay never exceeds the configured maximum.  With the
    options of the test suite (delay 10000, maximum 60000,
    attemptsBeforeDecay 0) the delay is doubled on each of three failed
    attempts, and the fourth failure schedules its reconnect after 80000 ms. *)
Theorem C3_delay_exceeds_maximum :
  let this := (after RevB test_options (failed_attempts 3 ++ [EvSockError 3])).1 in
  connectionDelay this = Some 80000%Z /\
  timers this = [(TReconnect, Some 80000%Z)] /\
  Opt.maxDelayBetweenReconnection (options this) = Some 60000%Z.
Proof. vm_compute. repeat split; reflexivity. Qed.

(** ** close and the [_shutdown] guard *)

(** RevA sets [_shutdown] in [close], and nothing sets it back. *)
Lemma RevA_shutdown_is_kept evs this :
  _shutdown this = true -> _shutdown (run RevA evs this).1 = true.
Proof.
  intros H. apply (post_same (fun c => _shutdown c = true)).
  stable_by stable_run.
Qed.

(** RevA's constructor already leaves [_shutdown] set: its [connect()]
    calls [close()] on the empty queue. *)
Lemma RevA_constructor_shuts_down o this :
  constructor RevA o = (this, Ret tt) -> _shutdown this = true.
Proof.
  unfold constructor. destruct (_ || _); [discriminate|].
  intros Hc.
  assert (Hp : post (fun c => _shutdown c = true) (fun _ => True)
                    (connect RevA) (new_connection o)).
  { unfold connect. apply post_withThis. cbn [_shutdown _erroring new_connection orb].
    apply (post_bind (fun c => _shutdown c = true)).
    - unfold post. vm_compute. reflexivity.
    - intros _ this' H'.
      apply (post_weaken (fun c => _shutdown c = true) (fun c => _shutdown c = true));
        [|auto|auto].
      exec (fun c => _shutdown c = true) ltac:(first [assumption | exact H']).
      stable_by stable_onErrored. }
  unfold post in Hp. rewrite Hc in Hp. exact Hp.
Qed.

(** With [_shutdown] set, [connect()] does nothing at all. *)
Lemma connect_noop_when_shut_down rev this :
  _shutdown this = true -> connect rev this = (this, Ret tt).
Proof. intros H. unfold connect, withThis. rewrite H. reflexivity. Qed.

(** RevA: from construction on, whatever happens, [connect()] is a no-op. *)
Theorem RevA_connect_is_noop_for_good o this0 evs :
  constructor RevA o = (this0, Ret tt) ->
  let this := (run RevA evs this0).1 in
  _shutdown this = true /\ connect RevA this = (this, Ret tt).
Proof.
  intros Hc this.
  assert (H : _shutdown this = true).
  { apply RevA_shutdown_is_kept, (RevA_constructor_shuts_down o), Hc. }
  split; [exact H|]. apply connect_noop_when_shut_down, H.
Qed.

(** [close()] returns normally in every state, in both revisions. *)
Theorem close_returns rev this : (close rev this).2 = Ret tt.
Proof.
  assert (H : post (fun _ => True) (fun _ => False) (close rev) this).
  { unfold close, _close, closeStream, closeSockets.
    destruct rev; exec (fun _ : PapertrailConnection => True) ltac:(exact Logic.I). }
  unfold post in H. destruct (close rev this) as [this' [[]|]]; [reflexivity|destruct H].
Qed.

(** On a connection whose teardown has nothing left to do, [close()]
    writes [_shutdown] and changes nothing else. *)
Lemma close_again rev this :
  stream this = None -> socket this = None -> deferredQueue this = [] ->
  close rev this =
    (with_shutdown this match rev with RevA => true | RevB => false end, Ret tt).
Proof.
  intros Hs Hk Hq. destruct this; cbn in Hs, Hk, Hq; subst.
  destruct rev; reflexivity.
Qed.

(** C6: after [close()], a reconnect timer that was pending does not
    reconnect.  RevB's [close()] sets [_shutdown] back to false before it
    returns, so the pending timer opens a new socket. *)
Theorem C6_RevB_reconnects_after_close :
  let closed := (after RevB test_options [EvSockError 0; EvClose]).1 in
  let later := (run RevB [EvTimer 0] closed).1 in
  _shutdown closed = false /\
  timers closed = [(TReconnect, Some 10000%Z)] /\
  length (heap closed) = 1 /\
  length (heap later) = 2 /\
  socket later = Some 1 /\
  (writable <$> heap later !! 1) = Some true.
Proof. vm_compute. repeat split; reflexivity. Qed.

(** ** RevB: nothing is destroyed before the queue went out *)

Lemma flushed_first_nil q0 : flushed_first q0 [].
Proof. intros pre i suf H. destruct pre; discriminate H. Qed.

Lemma flushed_first_snoc q0 l x :
  flushed_first q0 l ->
  (forall i, x = Destroyed i -> forall e, e ∈ q0 -> e ∈ writes l) ->
  flushed_first q0 (l ++ [x]).
Proof.
  intros Hl Hx pre i suf Heq e He.
  destruct suf as [|y suf _] using rev_ind.
  - apply (app_inj_tail l pre) in Heq as [-> ->]. eapply Hx; eauto.
  - change (pre ++ Destroyed i :: suf ++ [y]) with (pre ++ (Destroyed i :: suf) ++ [y]) in Heq.
    rewrite app_assoc in Heq. apply app_inj_tail in Heq as [-> _].
    eapply Hl; eauto.
Qed.

Lemma elem_of_writes_app_l e l1 l2 : e ∈ writes l1 -> e ∈ writes (l1 ++ l2).
Proof. rewrite writes_app. intros H. apply elem_of_app. left. exact H. Qed.

Section FlushBeforeTeardown.
Variable q0 : list Entry.
Variable L0 : list Effect.
Local Abbreviation grd := (guarded q0 L0).
Local Abbreviation acc := (accounted q0 L0).
Local Abbreviation fls := (flushed q0 L0).

Lemma accounted_guarded this : acc this -> grd this.
Proof. intros (Hf & l & Hl & Hs & _). split; eauto. Qed.

Lemma flushed_accounted this : fls this -> acc this.
Proof. intros [H _]. exact H. Qed.

Lemma accounted_flushed this :
  acc this -> deferredQueue this = [] -> fls this.
Proof. split; assumption. Qed.

Lemma accounted_effect this x :
  acc this -> (forall i, x <> Destroyed i) ->
  acc (with_log this (log this ++ [x])).
Proof.
  intros (Hf & l & Hl & Hs & Hc) Hx. split; [exact Hf|].
  exists (l ++ [x]). cbn. rewrite Hl, <- app_assoc. split; [reflexivity|]. split.
  - apply flushed_first_snoc; [exact Hs|]. intros i ->. destruct (Hx i eq_refl).
  - intros e He. destruct (Hc e He) as [H|H]; [left; exact H|right].
    apply elem_of_writes_app_l, H.
Qed.

Lemma accounted_push this e :
  acc this ->
  acc (with_deferredQueue this (deferredQueue this ++ [e])).
Proof.
  intros (Hf & l & Hl & Hs & Hc). split; [exact Hf|].
  exists l. cbn. repeat split; try assumption.
  intros e' He'. destruct (Hc e' He') as [H|H]; [left|right; exact H].
  apply elem_of_app. left. exact H.
Qed.

Lemma flushed_destroyed this h i :
  fls this -> fls (with_log (with_heap this h) (log this ++ [Destroyed i])).
Proof.
  intros [(Hf & l & Hl & Hs & Hc) Hq]. split; [|exact Hq]. split; [exact Hf|].
  assert (Hw : forall e, e ∈ q0 -> e ∈ writes l).
  { intros e He. destruct (Hc e He) as [H|H]; [|exact H].
    cbn in H. rewrite Hq in H. inversion H. }
  exists (l ++ [Destroyed i]). cbn. rewrite Hl, <- app_assoc. split; [reflexivity|]. split.
  - apply flushed_first_snoc; [exact Hs|]. intros _ _. exact Hw.
  - intros e He. right. apply elem_of_writes_app_l, Hw, He.
Qed.

(** Updates of the other fields change none of the three predicates: they
    read [options], [log] and [deferredQueue] only. *)
Local Ltac leafA :=
  first
    [ assumption
    | match goal with H : acc ?c |- acc _ => exact H end
    | apply accounted_effect; [|intros ?; discriminate]
    | apply accounted_push
    | match goal with H : acc ?c |- grd _ => exact (accounted_guarded _ H) end
    | idtac ]; try assumption.

Local Ltac leafF :=
  first
    [ assumption
    | match goal with H : fls ?c |- fls _ => exact H end
    | apply flushed_destroyed
    | idtac ]; try assumption.

Lemma accounted_emitSilentError err this :
  acc this -> post acc acc (emitSilentError err) this.
Proof. intros H. unfold emitSilentError. exec (accounted q0 L0) leafA. Qed.

Lemma accounted_onErrored this : acc this -> post acc acc onErrored this.
Proof.
  intros H. unfold onErrored. exec (accounted q0 L0) leafA.
  apply accounted_emitSilentError. leafA.
Qed.

Lemma flushed_closeSockets this : fls this -> post fls fls closeSockets this.
Proof. intros H. unfold closeSockets. exec (flushed q0 L0) leafF. Qed.

Lemma accounted__close attempt this :
  acc this -> post acc acc (_close RevB attempt) this.
Proof.
  intros H. unfold _close. exec (accounted q0 L0) leafA.
  apply (post_weaken fls fls); auto using flushed_accounted.
  apply flushed_closeSockets, accounted_flushed; [assumption|].
  destruct H as [Hf _]. rewrite Hf in *.
  destruct (deferredQueue this); [reflexivity|discriminate].
Qed.

Lemma accounted_close this : acc this -> post acc acc (close RevB) this.
Proof.
  intros H. unfold close. exec (accounted q0 L0) leafA.
  apply accounted__close. assumption.
Qed.

Lemma accounted_connect this : acc this -> post acc acc (connect RevB) this.
Proof.
  intros H. unfold connect. exec (accounted q0 L0) leafA.
  - apply accounted_close; assumption.
  - apply accounted_onErrored; assumption.
Qed.

Lemma accounted_tls_upgrade this :
  acc this -> post acc acc tls_upgrade this.
Proof. intros H. unfold tls_upgrade. exec (accounted q0 L0) leafA. Qed.

Lemma accounted_write text cb this :
  acc this -> post acc acc (write RevB text cb) this.
Proof. intros H. unfold write. cbv zeta. exec (accounted q0 L0) leafA. Qed.

(** The loop of [processBuffer]: if it returns, every entry it took was
    written and the queue is empty; if a write raises, nothing was
    destroyed meanwhile. *)
Lemma accounted_drain turns : forall this,
  acc this -> length (deferredQueue this) <= turns ->
  post fls grd (drain RevB turns) this.
Proof.
  induction turns as [|turns IH]; intros this H Hlen; cbn [drain].
  - apply post_ret, accounted_flushed; [exact H|].
    destruct (deferredQueue this); [reflexivity|cbn in Hlen; lia].
  - apply post_withThis.
    destruct (take RevB (deferredQueue this)) as [[msg rest]|] eqn:Htake.
    + apply take_RevB_Some in Htake.
      pose proof (accounted_guarded _ H) as Hg.
      apply post_bind_modify. eapply post_bind.
      { apply post_withThis. cbn.
        destruct (stream this) as [i|]; [|apply post_throw; exact Hg].
        apply post_stream_write; [|exact Hg].
        instantiate (1 := fun c => acc c /\ length (deferredQueue c) <= turns).
        cbn. split.
        - destruct H as (Hf & l & Hl & Hs & Hc). split; [exact Hf|].
          exists (l ++ [Wrote i msg]). cbn. rewrite Hl, <- app_assoc.
          split; [reflexivity|]. split.
          + apply flushed_first_snoc; [exact Hs|]. intros ? [=].
          + intros e He. rewrite writes_app. cbn.
            destruct (Hc e He) as [Hq|Hw]; [|right; apply elem_of_app; left; exact Hw].
            rewrite Htake in Hq. apply elem_of_app in Hq as [Hq|Hq]; [left; exact Hq|].
            right. apply elem_of_app. right. exact Hq.
        - rewrite Htake, length_app in Hlen. cbn in Hlen. lia. }
      intros _ this' [H' Hlen']. apply IH; assumption.
    + apply post_ret, accounted_flushed; [exact H|].
      apply take_RevB_None, Htake.
Qed.

Lemma flushed_emit n : forall this,
  fls this -> post fls fls (emit n closeSockets) this.
Proof.
  induction n as [|n IH]; intros this H; cbn [emit]; exec (flushed q0 L0) leafF.
  - apply flushed_closeSockets; assumption.
  - apply IH; assumption.
Qed.

Lemma accounted_processBuffer this :
  acc this -> post acc grd (processBuffer RevB) this.
Proof.
  intros H. unfold processBuffer. apply post_withThis.
  destruct (_ || _); [apply post_ret, H|].
  apply (post_bind fls).
  - apply accounted_drain; [exact H|lia].
  - intros _ this' H'. apply post_withThis.
    destruct (stream this') as [i|]; [|apply post_throw, accounted_guarded, H'].
    destruct (heap this' !! i) as [s|]; [|apply post_throw, accounted_guarded, H'].
    apply (post_weaken fls fls).
    + apply flushed_emit, H'.
    + apply flushed_accounted.
    + intros c Hc. apply accounted_guarded, flushed_accounted, Hc.
Qed.

Lemma accounted_onConnected this :
  acc this -> post acc grd (onConnected RevB) this.
Proof.
  intros H. unfold onConnected. do 4 apply post_bind_modify.
  apply (post_bind acc).
  - apply accounted_processBuffer. exact H.
  - intros _ this' H'. exec (accounted q0 L0) leafA.
Qed.

Lemma accounted_onErrored_timeout this :
  acc this -> post acc acc (onErrored_timeout RevB) this.
Proof.
  intros H. unfold onErrored_timeout. exec (accounted q0 L0) leafA.
  - apply accounted_emitSilentError. leafA.
  - apply accounted_connect. assumption.
Qed.

Local Ltac strong L :=
  first [ apply L
        | apply (post_weaken acc acc);
          [apply L | auto | apply accounted_guarded] ].

Lemma accounted_step ev this :
  acc this -> post acc grd (step RevB ev) this.
Proof.
  intros H. unfold step, run_connect_cb.
  destruct ev; exec (accounted q0 L0) leafA;
    try first [ strong accounted_write | strong accounted_close
              | apply accounted_onConnected
              | strong accounted_tls_upgrade | strong accounted_onErrored
              | strong accounted_connect | strong accounted_onErrored_timeout
              | strong accounted__close ]; leafA.
Qed.

Lemma accounted_run evs : forall this,
  acc this -> post acc grd (run RevB evs) this.
Proof.
  induction evs as [|ev evs IH]; intros this H; cbn [run].
  - apply post_ret, H.
  - apply (post_bind acc); [apply accounted_step, H|].
    intros _ this' H'. apply IH, H'.
Qed.

End FlushBeforeTeardown.

(** RevB with flushOnClose: whatever happens to a connection, none of its
    sockets is destroyed before every entry that was in the queue has been
    handed to a stream. *)
Theorem RevB_flushes_before_teardown this evs :
  Opt.flushOnClose (options this) = true ->
  exists l, log (run RevB evs this).1 = log this ++ l /\
            flushed_first (deferredQueue this) l.
Proof.
  intros Hf.
  assert (H : accounted (deferredQueue this) (log this) this).
  { split; [exact Hf|]. exists []. rewrite app_nil_r.
    split; [reflexivity|]. split; [apply flushed_first_nil|]. auto. }
  pose proof (accounted_run _ _ evs this H) as Hr. unfold post in Hr.
  destruct (run RevB evs this) as [this' [[]|]]; cbn.
  - apply accounted_guarded in Hr. destruct Hr as (_ & l & Hl & Hs). eauto.
  - destruct Hr as (_ & l & Hl & Hs). eauto.
Qed.

(** RevB's [close()] with flushOnClose and a non-empty queue: it destroys
    nothing and writes nothing; it puts one more listener for ['empty'] on
    the current stream and leaves [_shutdown] false. *)
Lemma RevB_close_defers_teardown this i s :
  Opt.flushOnClose (options this) = true ->
  deferredQueue this <> [] ->
  stream this = Some i -> heap this !! i = Some s ->
  close RevB this =
    (with_shutdown
       (with_heap this (<[i := sock_add_empty_listener s]> (heap this))) false,
     Ret tt).
Proof.
  intros Hf Hq Hs Hh. unfold close. rewrite bind_modify.
  unfold _close, try_catch, bind, withThis. cbn [stream with_shutdown options deferredQueue].
  rewrite Hs, Hf. destruct (deferredQueue this) as [|e q]; [congruence|].
  cbn [length Nat.ltb Nat.leb andb].
  unfold update_sock, modify. cbn [heap with_shutdown]. rewrite Hh. reflexivity.
Qed.

(** RevB at work: [close()] on a stream whose handshake is pending leaves
    the sockets alone; when the handshake completes the queued payload is
    written, and only then are the raw socket and the stream destroyed. *)
Example RevB_close_waits_for_flush :
  log (after RevB test_options
         [EvWrite "buffered" None; EvSockConnect 0; EvClose; EvSockConnect 1]).1
  = [Wrote 1 (entry "buffered"); Destroyed 0; Destroyed 1; EmitConnect].
Proof. vm_compute. reflexivity. Qed.

(** C2: with flushOnClose and a non-empty queue, teardown waits for the
    queue to drain.  RevA over TLS: a payload is queued while the TCP
    connection is still being set up, [close()] polls six times (200 ms to
    1200 ms) and then destroys the raw socket although the payload was
    never written; it stays in the queue. *)
Theorem C2_RevA_destroys_socket_before_flush :
  let this := (after RevA flush_options_RevA
                 ([EvWrite "buffered" None; EvClose] ++ close_polls)).1 in
  log this = [Destroyed 0] /\
  deferredQueue this = [entry "buffered"] /\
  socket this = None /\ stream this = None /\ timers this = [].
Proof. vm_compute. repeat split; reflexivity. Qed.

(** ** sendMessage *)

Lemma append_assoc (a b c : string) : ((a ++ b) ++ c = a ++ (b ++ c))%string.
Proof.
  induction a as [|x a IH]; [reflexivity|].
  change (String x ((a ++ b) ++ c) = String x (a ++ (b ++ c)))%string.
  rewrite IH. reflexivity.
Qed.

Lemma append_nil_r (a : string) : (a ++ "" = a)%string.
Proof.
  induction a as [|x a IH]; [reflexivity|].
  change (String x (a ++ "") = String x a)%string.
  rewrite IH. reflexivity.
Qed.

Lemma gap_at_spec i : (if (i =? 1)%nat then "    "%string else gap_before i) = gap_at i.
Proof. destruct i as [|[|i]]; reflexivity. Qed.

Lemma gap_before_S i : gap_before (S i) = gap_at i.
Proof. destruct i as [|[|i]]; reflexivity. Qed.

Section SenderFacts.
Variable produce : ProduceArgs -> string.
Variable now : nat -> nat.
Variable opts : SenderOptions.

Lemma sendMessage_loop_RevA level message lines : forall i len msg,
  len = i + length lines ->
  sendMessage_loop RevA produce now opts level message lines i len
                   (gap_before i) msg
  = (msg ++ frames_from produce now opts level i (framed_lines lines))%string.
Proof.
  induction lines as [|line rest IH]; intros i len msg Hlen.
  - cbn. rewrite append_nil_r. reflexivity.
  - cbn [sendMessage_loop framed_lines]. rewrite gap_at_spec.
    destruct rest as [|line' rest'].
    + assert (Hi : (i =? len - 1)%nat = true).
      { apply Nat.eqb_eq. cbn [length] in Hlen. lia. }
      rewrite Hi, andb_true_r.
      destruct (String.length line =? 0)%nat.
      * cbn. rewrite append_nil_r. reflexivity.
      * cbn [sendMessage_loop frames_from]. unfold frame.
        rewrite ?append_assoc, ?append_nil_r. reflexivity.
    + assert (Hi : (i =? len - 1)%nat = false).
      { apply Nat.eqb_neq. cbn [length] in Hlen. lia. }
      rewrite Hi, andb_false_r.
      rewrite <- gap_before_S, IH by (cbn [length] in *; lia).
      cbn [frames_from]. unfold frame. rewrite gap_before_S.
      rewrite ?append_assoc, ?append_nil_r. reflexivity.
Qed.

(** RevA hands [connection.write] one text: the frames of the lines of
    the body in order, an empty last line left out, every line but the
    first behind a gap of four spaces, every frame ending in CRLF. *)
Lemma sendMessage_RevA_frames level message cb :
  sendMessage RevA produce now opts level message cb =
  write RevA
    (frames_from produce now opts level 0
       (framed_lines (if (String.length message =? 0)%nat then [""%string]
                      else split_lines message)))
    cb.
Proof.
  unfold sendMessage, sendMessage_text. f_equal.
  apply (sendMessage_loop_RevA level message _ 0 _ ""%string). reflexivity.
Qed.

Lemma sendMessage_loop_RevB level message lines : forall i len gap msg,
  len = i + length lines ->
  sendMessage_loop RevB produce now opts level message lines i len gap msg
  = (msg ++ whole_body_frames produce now opts level message i (framed_lines lines))%string.
Proof.
  induction lines as [|line rest IH]; intros i len gap msg Hlen.
  - cbn. rewrite append_nil_r. reflexivity.
  - cbn [sendMessage_loop framed_lines].
    destruct rest as [|line' rest'].
    + assert (Hi : (i =? len - 1)%nat = true).
      { apply Nat.eqb_eq. cbn [length] in Hlen. lia. }
      rewrite Hi, andb_true_r.
      destruct (String.length line =? 0)%nat.
      * cbn. rewrite append_nil_r. reflexivity.
      * cbn [sendMessage_loop whole_body_frames]. unfold frame.
        rewrite ?append_assoc, ?append_nil_r. reflexivity.
    + assert (Hi : (i =? len - 1)%nat = false).
      { apply Nat.eqb_neq. cbn [length] in Hlen. lia. }
      rewrite Hi, andb_false_r.
      rewrite IH by (cbn [length] in *; lia).
      cbn [whole_body_frames]. unfold frame.
      rewrite ?append_assoc, ?append_nil_r. reflexivity.
Qed.

End SenderFacts.

(** C8: one frame per line, each frame holding only its own line, lines
    after the first behind a 4-space gap.  RevB computes [lines] and [gap]
    but passes the whole [message] to every frame: the body ["a\nb"] gives
    two frames that both hold ["a\nb"], and no gap anywhere.  (RevA frames
    each line on its own: [sendMessage_RevA_frames].) *)
Theorem C8_RevB_every_frame_holds_whole_body produce now opts level :
  sendMessage_text RevB produce now opts level two_lines =
    (produce {| severity := resolve_severity RevB opts level;
                p_host := hostname opts; appName := program opts;
                date := now 0; message := two_lines |} ++ CRLF ++
     produce {| severity := resolve_severity RevB opts level;
                p_host := hostname opts; appName := program opts;
                date := now 1; message := two_lines |} ++ CRLF)%string.
Proof.
  unfold sendMessage_text.
  rewrite (sendMessage_loop_RevB produce now opts level two_lines _ 0 _ _ ""%string)
    by reflexivity.
  cbn. rewrite append_nil_r. reflexivity.
Qed.

(** ** Severity *)

Section SeverityFacts.
Variable opts : SenderOptions.

(** A level mapped to a non-zero number resolves to that number. *)
Lemma resolve_severity_mapped rev level key v :
  key = match rev with RevA => strip_escapes level | RevB => level end ->
  levels opts !! key = Some v -> v <> 0%Z ->
  resolve_severity rev opts level = SevNumber v.
Proof.
  intros -> Hk Hv. unfold resolve_severity, js_or.
  destruct rev; rewrite Hk; destruct (Z.eqb_spec v 0); congruence.
Qed.

(** RevB: a level that is not in the map resolves to 5 (notice, as the
    comment in the source says). *)
Lemma resolve_severity_RevB_unmapped level :
  levels opts !! level = None ->
  resolve_severity RevB opts level = SevNumber 5.
Proof. intros H. unfold resolve_severity, js_or. rewrite H. reflexivity. Qed.

(** RevA: a level that is not in the map is passed on as it is, cleaned. *)
Lemma resolve_severity_RevA_unmapped level :
  levels opts !! strip_escapes level = None ->
  resolve_severity RevA opts level = SevLevel (strip_escapes level).
Proof. intros H. unfold resolve_severity, js_or. rewrite H. reflexivity. Qed.

(** A level mapped to 0 is treated like a level that is not mapped. *)
Lemma resolve_severity_zero rev level key :
  key = match rev with RevA => strip_escapes level | RevB => level end ->
  levels opts !! key = Some 0%Z ->
  resolve_severity rev opts level =
    match rev with RevA => SevLevel key | RevB => SevNumber 5 end.
Proof.
  intros -> Hk. unfold resolve_severity, js_or.
  destruct rev; rewrite Hk; reflexivity.
Qed.

End SeverityFacts.

(** C9: a level that is a key of the map resolves to the mapped number,
    also when that number is 0.  Both revisions test the looked-up value
    with [||], which takes 0 for a miss: with RevB's default map ['emerg']
    (mapped to 0) is sent with severity 5, and with RevA's default map
    ['debug'] (mapped to 0) is sent with the level string in place of a
    number. *)
Theorem C9_mapped_zero_falls_back hostname :
  levels (defaultSenderOptions RevB hostname) !! "emerg" = Some 0%Z /\
  resolve_severity RevB (defaultSenderOptions RevB hostname) "emerg" = SevNumber 5 /\
  levels (defaultSenderOptions RevA hostname) !! "debug" = Some 0%Z /\
  resolve_severity RevA (defaultSenderOptions RevA hostname) "debug" = SevLevel "debug".
Proof. repeat split; vm_compute; reflexivity. Qed.
